(** * Memory Lane: the offline image cache

    A shallow embedding of the cache layer of the photo viewer:
    - [src/lib/indexed-db.ts]: the blob store ([openDB], [storeImage],
      [getImage]) on top of one IndexedDB object store keyed by [url];
    - [src/components/image-cacher.tsx]: the reconciliation pass
      ([syncCache]);
    - [src/components/memory-gallery.tsx]: the hook [useOfflineImage] and
      the slideshow of [MemoryGallery];
    - [src/lib/placeholder-images.ts]: the lists by orientation;
    - [public/sw.js]: the listeners of the service worker.

    Asynchronous code is embedded in a state, trace and exception monad
    over the persistent world; the hook is a transition system whose
    events are the renders, the settlements of its lookups and the
    unmount. *)

From stdpp Require Import base list strings sorting pretty.

Local Open Scope string_scope.
Local Open Scope list_scope.

(** ** Data *)

(** A [Blob] is an opaque binary payload. *)
Definition Blob : Type := list Byte.byte.

(** The objects held by the object store: [{ url, blob }]. *)
Record CachedItem : Type := mkItem { url : string; blob : Blob }.

(** [ImagePlaceholder] of [src/lib/placeholder-images.ts]. *)
Inductive Orientation : Type := portrait | landscape.

Record ImagePlaceholder : Type := mkImage {
  id : string;
  description : string;
  imageUrl : string;
  imageHint : string;
  width : Z;
  height : Z;
  orientation : Orientation
}.

(** ** The object store ['images'], created with [{ keyPath: 'url' }]

    IndexedDB keeps the records of an object store in ascending key
    order; [put] replaces the record whose key equals the key of the
    stored value, [delete] removes the record with the key, [get] returns
    the record with the key, [getAll] returns all records in key order. *)
Module IDB.

Definition key_lt : relation string := strict String.le.

Fixpoint put (r : CachedItem) (l : list CachedItem) : list CachedItem :=
  match l with
  | [] => [r]
  | r' :: t =>
      if decide (url r = url r') then r :: t
      else if decide (String.le (url r) (url r')) then r :: r' :: t
      else r' :: put r t
  end.

Fixpoint get (k : string) (l : list CachedItem) : option CachedItem :=
  match l with
  | [] => None
  | r :: t => if decide (url r = k) then Some r else get k t
  end.

Definition delete (k : string) (l : list CachedItem) : list CachedItem :=
  filter (fun r => url r <> k) l.

Definition getAll (l : list CachedItem) : list CachedItem := l.

Definition keys (l : list CachedItem) : list string := map url l.

(** The number of records stored under a key. *)
Definition count (k : string) (l : list CachedItem) : nat :=
  length (filter (fun r => url r = k) l).

(** Well-formed contents: keys strictly ascending. *)
Definition wf (l : list CachedItem) : Prop := StronglySorted key_lt (keys l).

End IDB.

(** ** The world and the monad *)

(** What a computation can be observed to do. *)
Inductive Event : Type :=
| EvOpen                                  (* indexedDB.open *)
| EvFetch (u : string)                    (* fetch(u) *)
| EvPut (u : string) (b : Blob)           (* store.put({url, blob}) *)
| EvGet (u : string)                      (* store.get(u) *)
| EvGetAll                                (* store.getAll() *)
| EvDelete (u : string)                   (* store.delete(u) *)
| EvLog (msg : string)                    (* console.log *)
| EvError (msg : string).                 (* console.error *)

(** The persistent state: the records of the object store and the
    module-level handle [let db: IDBDatabase] of [indexed-db.ts]
    ([true] once it has been assigned). *)
Record World : Type := mkWorld { records : list CachedItem; db : bool }.

(** The outcome of a network fetch. *)
Inductive FetchResult : Type :=
| NetworkError
| Response (ok : bool) (body : Blob).

(** What the host environment decides: whether the database opens,
    whether each request succeeds, what each fetch returns. *)
Record Env : Type := mkEnv {
  env_open : bool;
  env_getAll : bool;
  env_get : string -> bool;
  env_put : string -> bool;
  env_delete : string -> bool;
  env_fetch : string -> FetchResult
}.

(** A promise settles with a value or is rejected with a reason. *)
Inductive Result (A : Type) : Type :=
| Ok (a : A)
| Err (reason : string).
Arguments Ok {A} a.
Arguments Err {A} reason.

Definition M (A : Type) : Type := World -> Result A * World * list Event.

Definition ret {A} (a : A) : M A := fun w => (Ok a, w, []).

Definition bind {A B} (m : M A) (k : A -> M B) : M B :=
  fun w =>
    match m w with
    | (Ok a, w1, t1) =>
        match k a w1 with
        | (r, w2, t2) => (r, w2, t1 ++ t2)
        end
    | (Err e, w1, t1) => (Err e, w1, t1)
    end.

Definition throw {A} (e : string) : M A := fun w => (Err e, w, []).

Definition try_catch {A} (m : M A) (h : string -> M A) : M A :=
  fun w =>
    match m w with
    | (Ok a, w1, t1) => (Ok a, w1, t1)
    | (Err e, w1, t1) =>
        match h e w1 with
        | (r, w2, t2) => (r, w2, t1 ++ t2)
        end
    end.

Definition emit (e : Event) : M unit := fun w => (Ok tt, w, [e]).

Notation "'let*' x ':=' m 'in' k" := (bind m (fun x => k))
  (at level 10, x name, m at level 100, k at level 200).
Notation "m ';;' k" := (bind m (fun _ => k))
  (at level 100, k at level 200, right associativity).

Fixpoint for_each {A} (l : list A) (body : A -> M unit) : M unit :=
  match l with
  | [] => ret tt
  | a :: t => body a ;; for_each t body
  end.

Definition result_of {A} (x : Result A * World * list Event) : Result A := x.1.1.
Definition world_of {A} (x : Result A * World * list Event) : World := x.1.2.
Definition trace_of {A} (x : Result A * World * list Event) : list Event := x.2.

(** ** [src/lib/indexed-db.ts] *)
Section BlobStore.
Variable env : Env.

Definition openDB : M unit :=
  fun w =>
    if db w then (Ok tt, w, [])
    else if env_open env
         then (Ok tt, mkWorld (records w) true, [EvOpen])
         else (Err "Error opening DB", w, [EvOpen; EvError "IndexedDB error:"]).

Definition storeImage (u : string) (b : Blob) : M unit :=
  openDB ;;
  fun w =>
    if env_put env u
    then (Ok tt, mkWorld (IDB.put (mkItem u b) (records w)) (db w), [EvPut u b])
    else (Err "Error storing image", w, [EvPut u b; EvError "Error storing image:"]).

Definition getImage (u : string) : M (option Blob) :=
  openDB ;;
  fun w =>
    if env_get env u
    then (Ok (blob <$> IDB.get u (records w)), w, [EvGet u])
    else (Err "Error getting image", w, [EvGet u; EvError "Error getting image:"]).

End BlobStore.

(** ** [src/components/image-cacher.tsx] *)
Section Synchronizer.
Variable env : Env.

(** [new Set(xs)]: the distinct elements, in order of first insertion;
    [s.has(x)] is membership and [[...s]] the elements in that order. *)
Definition js_set (xs : list string) : list string := remove_dups xs.

(** [fetch(u)] rejects on a network error and resolves with the
    response otherwise. *)
Definition fetch (u : string) : M (bool * Blob) :=
  fun w =>
    match env_fetch env u with
    | NetworkError => (Err "TypeError: Failed to fetch", w, [EvFetch u])
    | Response o b => (Ok (o, b), w, [EvFetch u])
    end.

(** The body of [for (const image of imagesToCache)]. *)
Definition cache_image (image : ImagePlaceholder) : M unit :=
  try_catch
    (let* response := fetch (imageUrl image) in
     if negb response.1 then throw ("Failed to fetch " +:+ imageUrl image)
     else storeImage env (imageUrl image) response.2)
    (fun _ => emit (EvError ("Failed to cache image: " +:+ imageUrl image))).

(** [urlsToRemove.forEach(url => deleteStore.delete(url))]: the requests
    of one [readwrite] transaction. No request carries a handler, so a
    failing request aborts the transaction and none of its deletions
    take effect. *)
Definition delete_all (urlsToRemove : list string) : M unit :=
  fun w =>
    (Ok tt,
     mkWorld (if forallb (env_delete env) urlsToRemove
              then foldl (fun l u => IDB.delete u l) (records w) urlsToRemove
              else records w) (db w),
     map EvDelete urlsToRemove).

Definition imagesToCache (images : list ImagePlaceholder)
    (cachedUrls : list string) : list ImagePlaceholder :=
  filter (fun image => imageUrl image ∉ cachedUrls) images.

Definition urlsToRemove (cachedUrls requiredUrls : list string) : list string :=
  filter (fun u => u ∉ requiredUrls) cachedUrls.

(** [getAllRequest.onsuccess]. *)
Definition getAll_onsuccess (images : list ImagePlaceholder)
    (cachedItems : list CachedItem) : M unit :=
  let cachedUrls := js_set (map url cachedItems) in
  let requiredUrls := js_set (map imageUrl images) in
  let toCache := imagesToCache images cachedUrls in
  (if bool_decide (0 < length toCache) then
     emit (EvLog ("Caching " +:+ pretty (length toCache)
                    +:+ " new image(s) in the background...")) ;;
     for_each toCache cache_image ;;
     emit (EvLog "Background caching complete.")
   else ret tt) ;;
  let toRemove := urlsToRemove cachedUrls requiredUrls in
  (if bool_decide (0 < length toRemove) then
     emit (EvLog ("Removing " +:+ pretty (length toRemove)
                    +:+ " stale image(s) from the cache...")) ;;
     delete_all toRemove ;;
     emit (EvLog "Stale images removed.")
   else ret tt) ;;
  if bool_decide (length toCache = 0) && bool_decide (length toRemove = 0)
  then emit (EvLog "Image cache is up to date.")
  else ret tt.

(** [getAllRequest.onerror]. *)
Definition getAll_onerror : M unit :=
  emit (EvError "Error fetching cached items from IndexedDB:").

(** [store.getAll()] on a [readonly] transaction: the request succeeds
    with the records or fails. *)
Definition getAll_request : M (option (list CachedItem)) :=
  fun w =>
    (Ok (if env_getAll env then Some (IDB.getAll (records w)) else None),
     w, [EvGetAll]).

Definition syncCache (images : list ImagePlaceholder) : M unit :=
  try_catch
    (openDB env ;;
     let* request := getAll_request in
     match request with
     | Some cachedItems => getAll_onsuccess images cachedItems
     | None => getAll_onerror
     end)
    (fun _ => emit (EvError "Error during cache sync:")).

End Synchronizer.

(** The desired set [D] and the cached set [C] of a pass. *)
Definition desired (images : list ImagePlaceholder) : list string :=
  map imageUrl images.
Definition cached (w : World) : list string := IDB.keys (records w).

(** ** [useOfflineImage] of [src/components/memory-gallery.tsx]

    One instance of the hook, under React's rules: the state [source]
    starts as the first argument; the effect runs after the first render
    and after every render whose [imageUrl] differs from that of the
    render before, once the cleanup of the effect before it has run; each
    run of the effect is a closure over the [imageUrl] and the [source] of
    its render and over its own [isMounted]; unmounting runs the cleanup
    that is registered. A render and the effect work it causes are one
    step. The lookup [getImage(imageUrl)] started by an effect settles
    later, between any two steps, also after the effect was cleaned
    up. *)

(** How the promise [getImage(imageUrl)] settles. *)
Inductive Settlement : Type :=
| Resolved (cachedBlob : option Blob)
| Rejected (reason : string).

(** The closure of one run of the effect. *)
Record Effect : Type := mkEffect {
  eff_imageUrl : string;          (* [imageUrl] of its render *)
  eff_source : option string;     (* [source] of its render *)
  isMounted : bool;               (* [let isMounted] *)
  settled : bool                  (* its lookup has settled *)
}.

Record Hook : Type := mkHook {
  arg : option string;            (* [imageUrl] of the last render *)
  source : option string;         (* the state of [useState] *)
  effects : list Effect;          (* the runs of the effect, oldest first *)
  cleanup : option nat;           (* the run whose cleanup is registered *)
  mounted : bool;                 (* the component is mounted *)
  objectURLs : list string;       (* created and not yet revoked *)
  created : nat;                  (* calls of [URL.createObjectURL] so far *)
  revocations : list string       (* arguments of [URL.revokeObjectURL], latest first *)
}.

Inductive HookEvent : Type :=
| Render (imageUrl : option string)       (* the component renders again *)
| Settle (run : nat) (s : Settlement)     (* the lookup of a run settles *)
| Unmount.

Definition set_source (s : option string) (h : Hook) : Hook :=
  mkHook (arg h) s (effects h) (cleanup h) (mounted h)
         (objectURLs h) (created h) (revocations h).

Definition set_effects (es : list Effect) (h : Hook) : Hook :=
  mkHook (arg h) (source h) es (cleanup h) (mounted h)
         (objectURLs h) (created h) (revocations h).

(** [URL.createObjectURL(blob)]: a fresh URL of scheme [blob:]. *)
Definition createObjectURL (b : Blob) (h : Hook) : string * Hook :=
  let u := "blob:" +:+ pretty (created h) in
  (u, mkHook (arg h) (source h) (effects h) (cleanup h) (mounted h)
             (u :: objectURLs h) (S (created h)) (revocations h)).

(** [URL.revokeObjectURL(u)]. *)
Definition revokeObjectURL (u : string) (h : Hook) : Hook :=
  mkHook (arg h) (source h) (effects h) (cleanup h) (mounted h)
         (filter (fun v => v <> u) (objectURLs h)) (created h)
         (u :: revocations h).

Definition startsWith (s p : string) : bool := String.prefix p s.

(** The function returned by the effect, for the run [i]. *)
Definition run_cleanup (h : Hook) : Hook :=
  match cleanup h with
  | None => h
  | Some i =>
      let h0 := mkHook (arg h) (source h) (effects h) None (mounted h)
                       (objectURLs h) (created h) (revocations h) in
      match effects h !! i with
      | None => h0
      | Some e =>
          let h1 := set_effects
                      (<[i := mkEffect (eff_imageUrl e) (eff_source e) false (settled e)]>
                         (effects h)) h0 in
          match eff_source e with
          | Some s => if startsWith s "blob:" then revokeObjectURL s h1 else h1
          | None => h1
          end
      end
  end.

(** The effect, run after a render with argument [arg h] and state
    [source h]: nothing for no URL, otherwise one more run, whose lookup
    is started and whose cleanup is registered. *)
Definition run_effect (h : Hook) : Hook :=
  match arg h with
  | None => h
  | Some u =>
      mkHook (arg h) (source h)
             (effects h ++ [mkEffect u (source h) true false])
             (Some (length (effects h))) (mounted h)
             (objectURLs h) (created h) (revocations h)
  end.

(** The first render: [useState(imageUrl)], then the effect. *)
Definition useOfflineImage (imageUrl : option string) : Hook :=
  run_effect (mkHook imageUrl imageUrl [] None true [] 0 []).

(** A later render: the effect depends on [[imageUrl]] alone. *)
Definition render (imageUrl : option string) (h : Hook) : Hook :=
  if mounted h then
    if decide (imageUrl = arg h) then h
    else
      let h1 := run_cleanup h in
      run_effect (mkHook imageUrl (source h1) (effects h1) (cleanup h1) (mounted h1)
                         (objectURLs h1) (created h1) (revocations h1))
  else h.

(** The rest of [fetchImage] after [await getImage(imageUrl)], for the
    run [i]. A rejection ends [fetchImage] there. *)
Definition settle (i : nat) (s : Settlement) (h : Hook) : Hook :=
  match effects h !! i with
  | None => h
  | Some e =>
      if settled e then h
      else
        let h1 := set_effects
                    (<[i := mkEffect (eff_imageUrl e) (eff_source e) (isMounted e) true]>
                       (effects h)) h in
        match s with
        | Rejected _ => h1
        | Resolved cachedBlob =>
            if isMounted e then
              match cachedBlob with
              | Some b =>
                  let (u, h2) := createObjectURL b h1 in set_source (Some u) h2
              | None => set_source (Some (eff_imageUrl e)) h1
              end
            else h1
        end
  end.

Definition unmount (h : Hook) : Hook :=
  if mounted h then
    let h1 := run_cleanup h in
    mkHook (arg h1) (source h1) (effects h1) (cleanup h1) false
           (objectURLs h1) (created h1) (revocations h1)
  else h.

Definition step (h : Hook) (ev : HookEvent) : Hook :=
  match ev with
  | Render i => render i h
  | Settle i s => settle i s h
  | Unmount => unmount h
  end.

Definition run (h : Hook) (evs : list HookEvent) : Hook := foldl step h evs.

(** The number of object URLs that are created and not revoked. *)
Definition live (h : Hook) : nat := length (objectURLs h).

(** The settlement of [getImage(u)] against a store. *)
Definition lookup (env : Env) (w : World) (u : string) : Settlement :=
  match result_of (getImage env u w) with
  | Ok cachedBlob => Resolved cachedBlob
  | Err reason => Rejected reason
  end.

(** What a consumer of the hook and the browser observe of it. *)
Definition observable (h : Hook) :=
  (source h, objectURLs h, revocations h, cleanup h, created h).

(** The run [i] is the lookup in progress for [u]: its effect is the one
    in force and its promise has not settled. *)
Definition resolving (h : Hook) (i : nat) (u : string) : Prop :=
  cleanup h = Some i /\
  exists e, effects h !! i = Some e /\ eff_imageUrl e = u /\
            isMounted e = true /\ settled e = false.

(** Some lookup is in progress. *)
Definition pending (h : Hook) : Prop := exists i u, resolving h i u.

(** The run [i] has been cleaned up. *)
Definition superseded (h : Hook) (i : nat) : Prop :=
  exists e, effects h !! i = Some e /\ isMounted e = false.

(** The registered cleanup belongs to a run that exists. *)
Definition cleanup_bound (h : Hook) : Prop :=
  forall i, cleanup h = Some i -> i < length (effects h).

(** ** Sequences of store operations *)
Inductive StoreOp : Type :=
| OpPut (k : string) (b : Blob)
| OpGet (k : string)
| OpDelete (k : string)
| OpSync (images : list ImagePlaceholder).

Definition exec_op (env : Env) (op : StoreOp) (w : World) : World :=
  match op with
  | OpPut k b => world_of (storeImage env k b w)
  | OpGet k => world_of (getImage env k w)
  | OpDelete k => world_of (delete_all env [k] w)
  | OpSync images => world_of (syncCache env images w)
  end.

Definition exec_ops (env : Env) (ops : list StoreOp) (w : World) : World :=
  foldl (fun w op => exec_op env op w) w ops.

(** The store can be used: the handle is there or the database opens. *)
Definition available (env : Env) (w : World) : Prop :=
  db w = true \/ env_open env = true.

(** ** What a pass amounts to

    The closed forms below are what the loops of [syncCache] compute on a
    store whose handle is open; [cache_image_run], [for_each_cache_run] and
    [syncCache_run] prove them equal to the code. *)

(** The payload that the loop body stores for [u], if it gets that far. *)
Definition cache_result (env : Env) (u : string) : option Blob :=
  match env_fetch env u with
  | Response true b => if env_put env u then Some b else None
  | _ => None
  end.

Definition cache_records (env : Env) (l : list CachedItem)
    (image : ImagePlaceholder) : list CachedItem :=
  match cache_result env (imageUrl image) with
  | Some b => IDB.put (mkItem (imageUrl image) b) l
  | None => l
  end.

Definition cache_trace (env : Env) (image : ImagePlaceholder) : list Event :=
  let u := imageUrl image in
  let failed := EvError ("Failed to cache image: " +:+ u) in
  match env_fetch env u with
  | NetworkError => [EvFetch u; failed]
  | Response false _ => [EvFetch u; failed]
  | Response true b =>
      if env_put env u then [EvFetch u; EvPut u b]
      else [EvFetch u; EvPut u b; EvError "Error storing image:"; failed]
  end.

Definition delete_records (env : Env) (l : list CachedItem)
    (us : list string) : list CachedItem :=
  if forallb (env_delete env) us
  then foldl (fun l u => IDB.delete u l) l us
  else l.

Definition to_fetch (images : list ImagePlaceholder) (w : World) :=
  imagesToCache images (js_set (cached w)).
Definition to_evict (images : list ImagePlaceholder) (w : World) :=
  urlsToRemove (js_set (cached w)) (js_set (desired images)).

Definition sync_records (env : Env) (images : list ImagePlaceholder)
    (w : World) : list CachedItem :=
  delete_records env
    (foldl (cache_records env) (records w) (to_fetch images w))
    (to_evict images w).

Definition sync_trace (env : Env) (images : list ImagePlaceholder)
    (w : World) : list Event :=
  let toCache := to_fetch images w in
  let toRemove := to_evict images w in
  (if db w then [] else [EvOpen]) ++ [EvGetAll] ++
  (if bool_decide (0 < length toCache) then
     [EvLog ("Caching " +:+ pretty (length toCache)
               +:+ " new image(s) in the background...")] ++
     (concat (map (cache_trace env) toCache) ++
     [EvLog "Background caching complete."])
   else []) ++
  (if bool_decide (0 < length toRemove) then
     [EvLog ("Removing " +:+ pretty (length toRemove)
               +:+ " stale image(s) from the cache...")] ++
     (map EvDelete toRemove ++ [EvLog "Stale images removed."])
   else []) ++
  (if bool_decide (length toCache = 0) && bool_decide (length toRemove = 0)
   then [EvLog "Image cache is up to date."] else []).

(** ** Sample inputs *)

Definition payload_1 : Blob := [Byte.x01].
Definition payload_2 : Blob := [Byte.x02].

Definition image_of (u : string) : ImagePlaceholder :=
  mkImage u "a photo" u "memory" 400 600 portrait.

(** The manifest [A, B, C] and a store that holds [B] and a stale [Z]. *)
Definition sample_manifest : list ImagePlaceholder :=
  [image_of "A"; image_of "B"; image_of "C"].
Definition sample_world : World :=
  mkWorld [mkItem "B" payload_1; mkItem "Z" payload_1] false.

(** Everything succeeds; every fetch returns [payload_2]. *)
Definition env_ok : Env :=
  mkEnv true true (fun _ => true) (fun _ => true) (fun _ => true)
        (fun _ => Response true payload_2).

(** As [env_ok], but the server answers 404 for [A]. *)
Definition env_A_404 : Env :=
  mkEnv true true (fun _ => true) (fun _ => true) (fun _ => true)
        (fun u => if decide (u = "A") then Response false [] else Response true payload_2).

(** As [env_ok], but the snapshot read fails. *)
Definition env_getAll_fails : Env :=
  mkEnv true false (fun _ => true) (fun _ => true) (fun _ => true)
        (fun _ => Response true payload_2).

(** As [env_ok], but every [get] request fails. *)
Definition env_get_fails : Env :=
  mkEnv true true (fun _ => false) (fun _ => true) (fun _ => true)
        (fun _ => Response true payload_2).

(** As [env_ok], but the database cannot be opened. *)
Definition env_open_fails : Env :=
  mkEnv false true (fun _ => true) (fun _ => true) (fun _ => true)
        (fun _ => Response true payload_2).

(** The store after a successful pass over the manifest [A, B, C]. *)
Definition synced_world : World :=
  world_of (syncCache env_ok sample_manifest sample_world).

(** ** What a sequence of store operations is observed to do *)
Definition trace_op (env : Env) (op : StoreOp) (w : World) : list Event :=
  match op with
  | OpPut k b => trace_of (storeImage env k b w)
  | OpGet k => trace_of (getImage env k w)
  | OpDelete k => trace_of (delete_all env [k] w)
  | OpSync images => trace_of (syncCache env images w)
  end.

Fixpoint trace_ops (env : Env) (ops : list StoreOp) (w : World) : list Event :=
  match ops with
  | [] => []
  | op :: t => trace_op env op w ++ trace_ops env t (exec_op env op w)
  end.

(** ** Invariants of the hook *)

(** A run whose [isMounted] is still true is the run in force, and the
    run in force exists, is for the argument of the last render, and
    belongs to a mounted component. *)
Definition one_run_in_force (h : Hook) : Prop :=
  (forall j e, effects h !! j = Some e -> isMounted e = true -> cleanup h = Some j) /\
  (forall i, cleanup h = Some i ->
     mounted h = true /\
     exists e, effects h !! i = Some e /\ isMounted e = true /\
               arg h = Some (eff_imageUrl e)).

(** Every render of a sequence of events has the argument "none". *)
Definition renders_none (evs : list HookEvent) : Prop :=
  Forall (fun ev => match ev with Render (Some _) => False | _ => True end) evs.

(** ** [MemoryGallery] of [src/components/memory-gallery.tsx]: the slideshow

    The state of the component that the handlers of the slideshow read and
    write, and the handlers themselves. [showNextImage] starts a fade-out
    whose [complete] callback, a closure over the [nextImage] and the
    [unseenImageQueue] of the call, moves the slideshow on and starts a
    fade-in, whose [complete] callback clears [isAnimating]. The order
    that [sort(() => Math.random() - 0.5)] gives to an array comes with the
    event of the callback. *)

Inductive GalleryMode : Type := landing | swipe | frozen.

Inductive Animation : Type :=
| Idle
| FadingOut (next : ImagePlaceholder) (queue : list ImagePlaceholder)
| FadingIn.

Record Gallery : Type := mkGallery {
  galleryMode : GalleryMode;
  currentImage : option ImagePlaceholder;
  nextImage : option ImagePlaceholder;
  unseenImageQueue : list ImagePlaceholder;
  isLocked : bool;
  isFirstVisit : bool;
  animation : Animation;          (* [isAnimating.current] is true unless [Idle] *)
  hasVisited : bool               (* [localStorage] has ['hasVisitedMemoryLane'] *)
}.

Inductive GalleryEvent : Type :=
| StartGallery                    (* "View Memories", "Back to swipe view" *)
| ShowFrozenGallery               (* "Frozen", "Show all images" *)
| FrozenImageClick (tile : nat)   (* a tile of the grid, by position *)
| ReturnToLanding
| Swipe                           (* a swipe or an arrow button *)
| KeyDown (key : string)
| ToggleLock                      (* a click on the photo or on its close button *)
| StartEffect                     (* the effect that starts the slideshow *)
| FadeOutComplete (order : list ImagePlaceholder -> list ImagePlaceholder)
| FadeInComplete.

Section Slideshow.
Variable allImages : list ImagePlaceholder.

(** The state after the first render and its effects, for what
    [localStorage] holds. *)
Definition MemoryGallery (visited : bool) : Gallery :=
  mkGallery landing None (head allImages) (tail allImages) false (negb visited)
            Idle visited.

Definition set_mode (m : GalleryMode) (g : Gallery) : Gallery :=
  mkGallery m (currentImage g) (nextImage g) (unseenImageQueue g) (isLocked g)
            (isFirstVisit g) (animation g) (hasVisited g).

Definition set_current (c : option ImagePlaceholder) (g : Gallery) : Gallery :=
  mkGallery (galleryMode g) c (nextImage g) (unseenImageQueue g) (isLocked g)
            (isFirstVisit g) (animation g) (hasVisited g).

Definition set_animation (a : Animation) (g : Gallery) : Gallery :=
  mkGallery (galleryMode g) (currentImage g) (nextImage g) (unseenImageQueue g)
            (isLocked g) (isFirstVisit g) a (hasVisited g).

(** [if (isFirstVisit) { localStorage.setItem(...); setIsFirstVisit(false) }]. *)
Definition end_first_visit (g : Gallery) : Gallery :=
  if isFirstVisit g
  then mkGallery (galleryMode g) (currentImage g) (nextImage g) (unseenImageQueue g)
                 (isLocked g) false (animation g) true
  else g.

Definition showNextImage (g : Gallery) : Gallery :=
  match animation g, nextImage g, isLocked g with
  | Idle, Some n, false => set_animation (FadingOut n (unseenImageQueue g)) g
  | _, _, _ => g
  end.

(** The [complete] callback of the fade-out. *)
Definition fadeOut_complete (order : list ImagePlaceholder -> list ImagePlaceholder)
    (g : Gallery) : Gallery :=
  match animation g with
  | FadingOut n q =>
      let queue :=
        if decide (length q = 0)
        then order (filter (fun img => id img <> id n) allImages)
        else q in
      mkGallery (galleryMode g) (Some n) (head queue) (tail queue) (isLocked g)
                (isFirstVisit g) FadingIn (hasVisited g)
  | _ => g
  end.

(** The [complete] callback of the fade-in. *)
Definition fadeIn_complete (g : Gallery) : Gallery :=
  match animation g with
  | FadingIn => set_animation Idle g
  | _ => g
  end.

Definition handleSwipe (g : Gallery) : Gallery :=
  if isLocked g then g else showNextImage (end_first_visit g).

Definition startGallery (g : Gallery) : Gallery := set_mode swipe g.

Definition showFrozenGallery (g : Gallery) : Gallery := set_mode frozen g.

Definition handleFrozenImageClick (image : ImagePlaceholder) (g : Gallery) : Gallery :=
  set_mode swipe (set_current (Some image) g).

Definition returnToLanding (g : Gallery) : Gallery :=
  set_current None (set_mode landing g).

Definition toggleLock (g : Gallery) : Gallery :=
  match currentImage g with
  | None => g
  | Some _ =>
      let g1 := end_first_visit g in
      mkGallery (galleryMode g1) (currentImage g1) (nextImage g1) (unseenImageQueue g1)
                (negb (isLocked g)) (isFirstVisit g1) (animation g1) (hasVisited g1)
  end.

Definition handleKeyDown (key : string) (g : Gallery) : Gallery :=
  match galleryMode g with
  | swipe =>
      if isLocked g then (if decide (key = "Escape") then toggleLock g else g)
      else handleSwipe g
  | _ => g
  end.

(** [if (galleryMode === 'swipe' && !currentImage) showNextImage()]. *)
Definition start_effect (g : Gallery) : Gallery :=
  match galleryMode g, currentImage g with
  | swipe, None => showNextImage g
  | _, _ => g
  end.

Definition gallery_step (g : Gallery) (ev : GalleryEvent) : Gallery :=
  match ev with
  | StartGallery => startGallery g
  | ShowFrozenGallery => showFrozenGallery g
  | FrozenImageClick tile =>
      match allImages !! tile with
      | Some image => handleFrozenImageClick image g
      | None => g
      end
  | ReturnToLanding => returnToLanding g
  | Swipe => handleSwipe g
  | KeyDown key => handleKeyDown key g
  | ToggleLock => toggleLock g
  | StartEffect => start_effect g
  | FadeOutComplete order => fadeOut_complete order g
  | FadeInComplete => fadeIn_complete g
  end.

Definition gallery_run (g : Gallery) (evs : list GalleryEvent) : Gallery :=
  foldl gallery_step g evs.

End Slideshow.

(** Each order that comes with a fade-out is a rearrangement of its
    argument, as [sort] gives. *)
Definition rearranges (order : list ImagePlaceholder -> list ImagePlaceholder) : Prop :=
  forall l, order l ≡ₚ l.

Definition fair (evs : list GalleryEvent) : Prop :=
  Forall (fun ev => match ev with FadeOutComplete order => rearranges order | _ => True end)
         evs.

(** The images that wait to be shown: [nextImage], then the queue. *)
Definition upcoming (g : Gallery) : list ImagePlaceholder :=
  option_list (nextImage g) ++ unseenImageQueue g.

(** What the slideshow keeps: no image waits twice, every image that waits
    is one of the gallery, nothing is queued behind an undefined
    [nextImage], and a fade-out in progress holds the [nextImage] and the
    queue of the state. *)
Definition queue_ok (allImages : list ImagePlaceholder) (g : Gallery) : Prop :=
  NoDup (id <$> upcoming g) /\
  (forall x, x ∈ upcoming g -> x ∈ allImages) /\
  (nextImage g = None -> unseenImageQueue g = []) /\
  (forall n q, animation g = FadingOut n q ->
     nextImage g = Some n /\ unseenImageQueue g = q).

(** What the gallery does between the request for the next image and the
    end of its fade-in. *)
Definition transition (order : list ImagePlaceholder -> list ImagePlaceholder)
    : list GalleryEvent :=
  [Swipe; FadeOutComplete order; FadeInComplete].

(** What the user does while the photo is zoomed, short of unlocking. *)
Definition navigation (evs : list GalleryEvent) : Prop :=
  Forall (fun ev => match ev with
                    | Swipe | StartEffect => True
                    | KeyDown key => key <> "Escape"
                    | _ => False
                    end) evs.

(** ** [src/lib/placeholder-images.ts] *)
#[global] Instance Orientation_eq_dec : EqDecision Orientation.
Proof. solve_decision. Defined.

Definition PortraitImages (AllImages : list ImagePlaceholder) : list ImagePlaceholder :=
  filter (fun img => orientation img = portrait) AllImages.

Definition LandscapeImages (AllImages : list ImagePlaceholder) : list ImagePlaceholder :=
  filter (fun img => orientation img = landscape) AllImages.

(** ** The service worker [public/sw.js]

    The cache storage of the origin is a list of named caches in order of
    creation; a cache is a list of entries, request URL and response, in
    order of insertion. [caches.match] returns the first match of the
    first cache that has one; [cache.put] replaces the entries of its
    request. An event runs to its end, the cache write that it starts
    included. *)
Module SW.

Definition CACHE_NAME : string := "memory-lane-cache-v1".

Record Request : Type := mkRequest {
  method : string;
  mode : string;
  req_url : string
}.

Record Response : Type := mkResponse {
  status : Z;
  type : string;
  body : Blob
}.

Abbreviation Cache := (list (string * Response)).
Abbreviation CacheStorage := (list (string * Cache)).

(** What the host decides: what the network answers ([None] when
    [fetch] rejects) and whether a [cache.put] succeeds. *)
Record Host : Type := mkHost {
  net : Request -> option Response;
  put_ok : string -> bool
}.

(** What becomes of a fetch event: left to the browser, answered, or
    failed ([respondWith] got a rejection or no response). *)
Inductive Outcome : Type :=
| NotHandled
| Responded (r : Response)
| Failed.

(** [cache.match(url)]. *)
Fixpoint cache_match (u : string) (c : Cache) : option Response :=
  match c with
  | [] => None
  | (k, r) :: t => if decide (k = u) then Some r else cache_match u t
  end.

(** [caches.match(url)]. *)
Fixpoint caches_match (u : string) (cs : CacheStorage) : option Response :=
  match cs with
  | [] => None
  | (_, c) :: t =>
      match cache_match u c with
      | Some r => Some r
      | None => caches_match u t
      end
  end.

(** [cache.put(url, response)]. *)
Definition cache_put (u : string) (r : Response) (c : Cache) : Cache :=
  filter (fun e => e.1 <> u) c ++ [(u, r)].

(** [caches.open(name).then(cache => cache.put(url, response))]: the
    cache is created when it is missing, also when the put then fails. *)
Fixpoint open_and_put (name u : string) (r : Response) (ok : bool)
    (cs : CacheStorage) : CacheStorage :=
  match cs with
  | [] => [(name, if ok then cache_put u r [] else [])]
  | (k, c) :: t =>
      if decide (k = name) then (k, if ok then cache_put u r c else c) :: t
      else (k, c) :: open_and_put name u r ok t
  end.

Section Worker.
(** The URL that ['/'] denotes in the scope of the worker. *)
Variable root : string.

(** The listener of [fetch]: the outcome, the cache storage after it and
    the URLs that it asked the network for. *)
Definition on_fetch (host : Host) (request : Request) (cs : CacheStorage)
    : Outcome * CacheStorage * list string :=
  let u := req_url request in
  if decide (method request <> "GET") then (NotHandled, cs, [])
  else if decide (mode request = "navigate") then
    match net host request with
    | Some response =>
        if decide (status response <> 200%Z \/ type response <> "basic")
        then (Responded response, cs, [u])
        else (Responded response,
              open_and_put CACHE_NAME u response (put_ok host u) cs, [u])
    | None =>
        (match caches_match u cs with
         | Some response => Responded response
         | None =>
             match caches_match root cs with
             | Some response => Responded response
             | None => Failed
             end
         end, cs, [u])
    end
  else
    match caches_match u cs with
    | Some response => (Responded response, cs, [])
    | None =>
        match net host request with
        | None => (Failed, cs, [u])
        | Some response =>
            if decide (status response <> 200%Z) then (Responded response, cs, [u])
            else if startsWith u "chrome-extension://"
                 then (Responded response, cs, [u])
                 else (Responded response,
                       open_and_put CACHE_NAME u response (put_ok host u) cs, [u])
        end
    end.

(** The listener of [activate]: every cache whose name is not in
    [cacheWhitelist] is deleted. *)
Definition on_activate (cs : CacheStorage) : CacheStorage :=
  filter (fun nc => nc.1 ∈ [CACHE_NAME]) cs.

Inductive Event : Type :=
| Fetch (host : Host) (request : Request)
| Activate.

Definition step (cs : CacheStorage) (ev : Event) : CacheStorage :=
  match ev with
  | Fetch host request => (on_fetch host request cs).1.2
  | Activate => on_activate cs
  end.

Definition run (cs : CacheStorage) (evs : list Event) : CacheStorage :=
  foldl step cs evs.

End Worker.

(** Every stored response has the status 200. *)
Definition all_ok (cs : CacheStorage) : Prop :=
  Forall (fun nc => Forall (fun e => status e.2 = 200%Z) nc.2) cs.

(** The events of a sequence are fetch events. *)
Definition fetches (evs : list Event) : Prop :=
  Forall (fun ev => match ev with Fetch _ _ => True | Activate => False end) evs.

Definition navigation (u : string) : Request := mkRequest "GET" "navigate" u.
Definition asset (u : string) : Request := mkRequest "GET" "no-cors" u.

(** Sample hosts: the network answers every request with a page, or
    rejects every request. *)
Definition page : Response := mkResponse 200 "basic" [Byte.x3c].
Definition online : Host := mkHost (fun _ => Some page) (fun _ => true).
Definition offline : Host := mkHost (fun _ => None) (fun _ => true).

End SW.

(** * Properties *)

(** ** The object store *)
Section ObjectStore.

Lemma key_lt_irrefl k : ~ IDB.key_lt k k.
Proof. intros [_ H]. by apply H. Qed.

Lemma key_lt_trans k1 k2 k3 :
  IDB.key_lt k1 k2 -> IDB.key_lt k2 k3 -> IDB.key_lt k1 k3.
Proof. unfold IDB.key_lt. intros. by etrans. Qed.

Lemma key_lt_of_not_le k1 k2 : ~ String.le k1 k2 -> IDB.key_lt k2 k1.
Proof.
  intros Hn. destruct (total String.le k1 k2) as [H|H]; [done|].
  split; [done|]. intros H'. by apply Hn.
Qed.

Lemma keys_put r l x :
  x ∈ IDB.keys (IDB.put r l) <-> x = url r \/ x ∈ IDB.keys l.
Proof.
  unfold IDB.keys. induction l as [|r' t IH]; simpl.
  - rewrite list_elem_of_singleton, elem_of_nil. tauto.
  - repeat case_decide; simpl; rewrite ?elem_of_cons; try rewrite IH.
    + rewrite <- H. tauto.
    + tauto.
    + tauto.
Qed.

Lemma keys_delete k l x :
  x ∈ IDB.keys (IDB.delete k l) <-> x <> k /\ x ∈ IDB.keys l.
Proof.
  unfold IDB.keys, IDB.delete. rewrite !list_elem_of_fmap.
  split.
  - intros (r & -> & Hr). apply list_elem_of_filter in Hr as [? ?]. eauto.
  - intros (Hne & r & -> & Hr). exists r. split; [done|].
    by apply list_elem_of_filter.
Qed.

Lemma wf_put r l : IDB.wf l -> IDB.wf (IDB.put r l).
Proof.
  unfold IDB.wf. induction l as [|r' t IH]; simpl; intros Hwf.
  - repeat constructor.
  - apply StronglySorted_cons in Hwf as [Hall Ht].
    repeat case_decide.
    + apply StronglySorted_cons. split; [|done]. by rewrite H.
    + assert (IDB.key_lt (url r) (url r')) as Hlt by (split; [done|];
        intros Hle; apply H; by apply (anti_symm String.le)).
      apply StronglySorted_cons. split.
      * constructor; [done|].
        eapply Forall_impl; [exact Hall|]. intros; by eapply key_lt_trans.
      * apply StronglySorted_cons. done.
    + apply StronglySorted_cons. split; [|by apply IH].
      apply Forall_forall. intros x Hx.
      change (x ∈ IDB.keys (IDB.put r t)) in Hx.
      apply keys_put in Hx as [->|Hx].
      * by apply key_lt_of_not_le.
      * rewrite Forall_forall in Hall. by apply Hall.
Qed.

Lemma wf_delete k l : IDB.wf l -> IDB.wf (IDB.delete k l).
Proof.
  unfold IDB.wf, IDB.delete. induction l as [|r t IH]; simpl; intros Hwf.
  - constructor.
  - apply StronglySorted_cons in Hwf as [Hall Ht].
    rewrite filter_cons. case_decide; [|by apply IH].
    simpl. apply StronglySorted_cons. split; [|by apply IH].
    apply Forall_forall. intros x Hx.
    change (x ∈ IDB.keys (IDB.delete k t)) in Hx.
    apply keys_delete in Hx as [_ Hx].
    rewrite Forall_forall in Hall. by apply Hall.
Qed.

Lemma wf_NoDup l : IDB.wf l -> NoDup (IDB.keys l).
Proof.
  unfold IDB.wf. generalize (IDB.keys l). clear l.
  induction l as [|k t IH]; intros Hwf; [constructor|].
  apply StronglySorted_cons in Hwf as [Hall Ht].
  constructor; [|by apply IH].
  intros Hin. rewrite Forall_forall in Hall.
  by apply (key_lt_irrefl k), Hall.
Qed.

Lemma get_put_eq r l : IDB.get (url r) (IDB.put r l) = Some r.
Proof.
  induction l as [|r' t IH]; simpl.
  - by rewrite decide_True.
  - repeat case_decide; simpl; rewrite ?decide_True by done; try done.
    by rewrite decide_False by done.
Qed.

Lemma get_put_ne k r l : k <> url r -> IDB.get k (IDB.put r l) = IDB.get k l.
Proof.
  intros Hne. induction l as [|r' t IH]; simpl.
  - by rewrite decide_False.
  - repeat case_decide; simpl; rewrite ?(decide_False (P := url r = k)) by done;
      try done; try congruence.
    + by rewrite decide_True.
    + by rewrite decide_False.
    + by rewrite decide_True.
    + by rewrite decide_False.
Qed.

Lemma get_delete_ne k k' l : k <> k' -> IDB.get k (IDB.delete k' l) = IDB.get k l.
Proof.
  intros Hne. unfold IDB.delete. induction l as [|r t IH]; simpl; [done|].
  rewrite filter_cons. repeat case_decide; simpl; try done; try congruence.
  - by rewrite decide_True.
  - by rewrite decide_False.
Qed.

Lemma get_None k l : IDB.get k l = None <-> k ∉ IDB.keys l.
Proof.
  unfold IDB.keys. induction l as [|r t IH]; simpl.
  - split; [intros _; apply not_elem_of_nil | done].
  - rewrite not_elem_of_cons. case_decide; [|rewrite IH]; intuition congruence.
Qed.

Lemma count_0 k l : Forall (IDB.key_lt k) (IDB.keys l) -> IDB.count k l = 0.
Proof.
  unfold IDB.count, IDB.keys. induction l as [|r t IH]; simpl; [done|].
  intros Hall. apply Forall_cons in Hall as [Hlt Hall].
  rewrite filter_cons, decide_False; [by apply IH|].
  intros Heq. rewrite Heq in Hlt. by apply (key_lt_irrefl k).
Qed.

Lemma count_put r l : IDB.wf l -> IDB.count (url r) (IDB.put r l) = 1.
Proof.
  unfold IDB.wf. induction l as [|r' t IH]; simpl; intros Hwf.
  - unfold IDB.count. by rewrite filter_cons, decide_True.
  - apply StronglySorted_cons in Hwf as [Hall Ht].
    unfold IDB.count in *. repeat case_decide.
    + rewrite filter_cons, decide_True by done. simpl. f_equal.
      apply count_0. by rewrite H.
    + assert (IDB.key_lt (url r) (url r')) as Hlt by (split; [done|];
        intros Hle; apply H; by apply (anti_symm String.le)).
      rewrite filter_cons, decide_True by done. simpl. f_equal.
      apply (count_0 _ (r' :: t)). constructor; [done|].
      eapply Forall_impl; [exact Hall|]. intros; by eapply key_lt_trans.
    + rewrite filter_cons, decide_False by done. by apply IH.
Qed.

End ObjectStore.

(** ** The monad on a store whose handle is open *)
Section Runs.
Variable env : Env.

Lemma openDB_run w :
  available env w ->
  openDB env w = (Ok tt, mkWorld (records w) true, if db w then [] else [EvOpen]).
Proof.
  intros Hav. unfold openDB. destruct w as [l [|]]; simpl in *; [done|].
  destruct Hav as [?| ->]; done.
Qed.

Lemma openDB_open l : openDB env (mkWorld l true) = (Ok tt, mkWorld l true, []).
Proof. done. Qed.

Lemma storeImage_run l u b :
  storeImage env u b (mkWorld l true) =
  if env_put env u
  then (Ok tt, mkWorld (IDB.put (mkItem u b) l) true, [EvPut u b])
  else (Err "Error storing image", mkWorld l true,
        [EvPut u b; EvError "Error storing image:"]).
Proof. unfold storeImage, bind. simpl. by destruct (env_put env u). Qed.

Lemma getImage_run l u :
  getImage env u (mkWorld l true) =
  if env_get env u
  then (Ok (blob <$> IDB.get u l), mkWorld l true, [EvGet u])
  else (Err "Error getting image", mkWorld l true,
        [EvGet u; EvError "Error getting image:"]).
Proof. unfold getImage, bind. simpl. by destruct (env_get env u). Qed.

Lemma cache_image_run l image :
  cache_image env image (mkWorld l true) =
  (Ok tt, mkWorld (cache_records env l image) true, cache_trace env image).
Proof.
  unfold cache_image, try_catch, bind, fetch, cache_records, cache_trace,
    cache_result.
  destruct (env_fetch env (imageUrl image)) as [|[|] b]; simpl; try done.
  rewrite storeImage_run. by destruct (env_put env (imageUrl image)).
Qed.

Lemma for_each_cache_run images l :
  for_each images (cache_image env) (mkWorld l true) =
  (Ok tt, mkWorld (foldl (cache_records env) l images) true,
   concat (map (cache_trace env) images)).
Proof.
  revert l. induction images as [|image t IH]; intros l; simpl; [done|].
  unfold bind. by rewrite cache_image_run, IH.
Qed.

Lemma bind_run {A B} (m : M A) (k : A -> M B) w a w1 t1 r w2 t2 :
  m w = (Ok a, w1, t1) -> k a w1 = (r, w2, t2) ->
  bind m k w = (r, w2, t1 ++ t2).
Proof. intros Hm Hk. unfold bind. by rewrite Hm, Hk. Qed.

Lemma caching_run (toCache : list ImagePlaceholder) l :
  (if bool_decide (0 < length toCache) then
     emit (EvLog ("Caching " +:+ pretty (length toCache)
                    +:+ " new image(s) in the background...")) ;;
     for_each toCache (cache_image env) ;;
     emit (EvLog "Background caching complete.")
   else ret tt) (mkWorld l true) =
  (Ok tt, mkWorld (foldl (cache_records env) l toCache) true,
   if bool_decide (0 < length toCache) then
     [EvLog ("Caching " +:+ pretty (length toCache)
               +:+ " new image(s) in the background...")] ++
     (concat (map (cache_trace env) toCache) ++
     [EvLog "Background caching complete."])
   else []).
Proof.
  case_bool_decide as Hlen.
  - eapply bind_run; [done|]. eapply bind_run; [apply for_each_cache_run|done].
  - destruct toCache; [done|]. simpl in Hlen. lia.
Qed.

Lemma removing_run (toRemove : list string) l :
  (if bool_decide (0 < length toRemove) then
     emit (EvLog ("Removing " +:+ pretty (length toRemove)
                    +:+ " stale image(s) from the cache...")) ;;
     delete_all env toRemove ;;
     emit (EvLog "Stale images removed.")
   else ret tt) (mkWorld l true) =
  (Ok tt, mkWorld (delete_records env l toRemove) true,
   if bool_decide (0 < length toRemove) then
     [EvLog ("Removing " +:+ pretty (length toRemove)
               +:+ " stale image(s) from the cache...")] ++
     (map EvDelete toRemove ++ [EvLog "Stale images removed."])
   else []).
Proof.
  case_bool_decide as Hlen.
  - eapply bind_run; [done|]. eapply bind_run; done.
  - destruct toRemove; [done|]. simpl in Hlen. lia.
Qed.

Lemma getAll_onsuccess_run images l :
  getAll_onsuccess env images l (mkWorld l true) =
  (Ok tt, mkWorld (sync_records env images (mkWorld l true)) true,
   drop 1 (sync_trace env images (mkWorld l true))).
Proof.
  unfold getAll_onsuccess, sync_records, sync_trace. simpl.
  eapply bind_run; [apply caching_run|].
  eapply bind_run; [apply removing_run|].
  unfold to_fetch, to_evict, cached, desired, IDB.keys. simpl.
  by destruct (_ && _).
Qed.

(** A pass on an available store whose snapshot read succeeds. *)
Lemma syncCache_run images w :
  available env w -> env_getAll env = true ->
  syncCache env images w =
  (Ok tt, mkWorld (sync_records env images w) true, sync_trace env images w).
Proof.
  intros Hav Hall. unfold syncCache, try_catch.
  erewrite bind_run; [| by apply openDB_run |].
  2:{ eapply bind_run.
      - unfold getAll_request. rewrite Hall. reflexivity.
      - apply getAll_onsuccess_run. }
  unfold sync_records, sync_trace, to_fetch, to_evict, cached. simpl.
  by destruct (db w).
Qed.

(** A pass on an available store whose snapshot read fails. *)
Lemma syncCache_getAll_fails images w :
  available env w -> env_getAll env = false ->
  syncCache env images w =
  (Ok tt, mkWorld (records w) true,
   (if db w then [] else [EvOpen]) ++
   [EvGetAll; EvError "Error fetching cached items from IndexedDB:"]).
Proof.
  intros Hav Hall. unfold syncCache, try_catch.
  erewrite bind_run; [| by apply openDB_run |].
  2:{ eapply bind_run.
      - unfold getAll_request. rewrite Hall. reflexivity.
      - reflexivity. }
  done.
Qed.

(** A pass on a store that cannot be opened. *)
Lemma syncCache_unavailable images w :
  db w = false -> env_open env = false ->
  syncCache env images w =
  (Ok tt, w, [EvOpen; EvError "IndexedDB error:"; EvError "Error during cache sync:"]).
Proof.
  intros Hdb Hopen. unfold syncCache, try_catch, bind, openDB.
  by rewrite Hdb, Hopen.
Qed.

End Runs.

(** ** The closed forms, key by key *)
Section ClosedForms.
Variable env : Env.

Lemma get_delete_eq k l : IDB.get k (IDB.delete k l) = None.
Proof. apply get_None. rewrite keys_delete. tauto. Qed.

Lemma get_cache_loop images l u :
  IDB.get u (foldl (cache_records env) l images) =
  match cache_result env u with
  | Some b =>
      if decide (u ∈ map imageUrl images) then Some (mkItem u b) else IDB.get u l
  | None => IDB.get u l
  end.
Proof.
  revert l. induction images as [|image t IH]; intros l; cbn [foldl map].
  - destruct (cache_result env u); [|done].
    rewrite decide_False; [done | apply not_elem_of_nil].
  - rewrite IH. unfold cache_records.
    destruct (decide (imageUrl image = u)) as [->|Hne].
    + destruct (cache_result env u) as [b|]; [|done].
      rewrite (decide_True (P := _ ∈ _ :: _)) by (apply elem_of_cons; by left).
      case_decide; [done|]. apply (get_put_eq (mkItem _ b)).
    + destruct (cache_result env u) as [b|].
      * destruct (decide (u ∈ map imageUrl t)) as [Hin|Hin].
        -- rewrite decide_True; [done | (apply elem_of_cons; by right)].
        -- rewrite decide_False by (rewrite elem_of_cons; intuition congruence).
           destruct (cache_result env (imageUrl image)); [|done].
           apply get_put_ne. simpl. congruence.
      * destruct (cache_result env (imageUrl image)); [|done].
        apply get_put_ne. simpl. congruence.
Qed.

Lemma get_delete_loop us l u :
  IDB.get u (foldl (fun l u => IDB.delete u l) l us) =
  if decide (u ∈ us) then None else IDB.get u l.
Proof.
  revert l. induction us as [|k t IH]; intros l; cbn [foldl].
  - rewrite decide_False; [done | apply not_elem_of_nil].
  - rewrite IH. destruct (decide (u = k)) as [->|Hne].
    + rewrite (decide_True (P := _ ∈ _ :: _)) by (apply elem_of_cons; by left).
      case_decide; [done | apply get_delete_eq].
    + rewrite (get_delete_ne u k) by done.
      destruct (decide (u ∈ t)) as [Hin|Hin].
      * rewrite decide_True; [done | (apply elem_of_cons; by right)].
      * by rewrite decide_False by (rewrite elem_of_cons; intuition congruence).
Qed.

Lemma elem_of_to_fetch images w u :
  u ∈ map imageUrl (to_fetch images w) <-> u ∈ desired images /\ u ∉ cached w.
Proof.
  unfold to_fetch, imagesToCache, js_set, desired.
  rewrite !list_elem_of_fmap. split.
  - intros (image & -> & Hin). apply list_elem_of_filter in Hin as [Hn Hin].
    rewrite elem_of_remove_dups in Hn. eauto.
  - intros ((image & -> & Hin) & Hn). exists image. split; [done|].
    apply list_elem_of_filter. by rewrite elem_of_remove_dups.
Qed.

Lemma elem_of_to_evict images w u :
  u ∈ to_evict images w <-> u ∈ cached w /\ u ∉ desired images.
Proof.
  unfold to_evict, urlsToRemove, js_set.
  rewrite list_elem_of_filter, !elem_of_remove_dups. tauto.
Qed.

Lemma elem_of_guarded {A B} (ev : A) (l : list B) (pre mid post : list A) :
  ev ∉ pre -> ev ∉ post ->
  (l = [] -> mid = []) ->
  ev ∈ (if bool_decide (0 < length l) then pre ++ (mid ++ post) else []) <-> ev ∈ mid.
Proof.
  intros Hpre Hpost Hnil. case_bool_decide as Hlen.
  - rewrite !elem_of_app. tauto.
  - destruct l; [|simpl in Hlen; lia]. rewrite Hnil by done. done.
Qed.

Lemma sync_trace_elem images w ev :
  ev <> EvOpen -> ev <> EvGetAll -> (forall m, ev <> EvLog m) ->
  ev ∈ sync_trace env images w <->
  ev ∈ concat (map (cache_trace env) (to_fetch images w)) \/
  ev ∈ map EvDelete (to_evict images w).
Proof.
  intros H1 H2 H3. unfold sync_trace.
  assert (forall m, ev ∉ [EvLog m]) as Hlog
    by (intros m; rewrite list_elem_of_singleton; apply H3).
  rewrite !elem_of_app.
  rewrite (elem_of_guarded ev (to_fetch images w)) by (try done; by intros ->).
  rewrite (elem_of_guarded ev (to_evict images w)) by (try done; by intros ->).
  assert (ev ∉ (if db w then [] else [EvOpen])) as Ho.
  { destruct (db w); [apply not_elem_of_nil|]. by rewrite list_elem_of_singleton. }
  assert (ev ∉ [EvGetAll]) as Hg by (by rewrite list_elem_of_singleton).
  assert (ev ∉ (if bool_decide (length (to_fetch images w) = 0)
                     && bool_decide (length (to_evict images w) = 0)
                then [EvLog "Image cache is up to date."] else [])) as Hu.
  { destruct (_ && _); [apply Hlog | apply not_elem_of_nil]. }
  tauto.
Qed.

Lemma cache_trace_fetch image u :
  EvFetch u ∈ cache_trace env image <-> u = imageUrl image.
Proof.
  unfold cache_trace.
  destruct (env_fetch env (imageUrl image)) as [|[|] b];
    [|destruct (env_put env (imageUrl image))|];
    rewrite !elem_of_cons, elem_of_nil; intuition congruence.
Qed.

Lemma cache_trace_put image u b :
  EvPut u b ∈ cache_trace env image <->
  u = imageUrl image /\ env_fetch env u = Response true b.
Proof.
  unfold cache_trace.
  destruct (env_fetch env (imageUrl image)) as [|[|] b'] eqn:Hf;
    [|destruct (env_put env (imageUrl image))|];
    rewrite !elem_of_cons, elem_of_nil; intuition congruence.
Qed.

Lemma cache_trace_delete image u : EvDelete u ∉ cache_trace env image.
Proof.
  unfold cache_trace.
  destruct (env_fetch env (imageUrl image)) as [|[|] b];
    [|destruct (env_put env (imageUrl image))|];
    rewrite !elem_of_cons, elem_of_nil; intuition congruence.
Qed.

Lemma elem_of_concat_map {A B} (f : A -> list B) (l : list A) (y : B) :
  y ∈ concat (map f l) <-> exists x, x ∈ l /\ y ∈ f x.
Proof.
  induction l as [|a t IH]; simpl.
  - rewrite elem_of_nil. split; [done|]. intros (x & Hx & _).
    by apply elem_of_nil in Hx.
  - rewrite elem_of_app, IH. split.
    + intros [H|(x & Hx & Hy)]; [exists a | exists x]; split; try done.
      * (apply elem_of_cons; by left).
      * (apply elem_of_cons; by right).
    + intros (x & Hx & Hy). apply elem_of_cons in Hx as [->|Hx]; eauto.
Qed.

Lemma sync_trace_fetch images w u :
  EvFetch u ∈ sync_trace env images w <-> u ∈ desired images /\ u ∉ cached w.
Proof.
  rewrite sync_trace_elem by done. rewrite <- elem_of_to_fetch.
  rewrite elem_of_concat_map, !list_elem_of_fmap. split.
  - intros [(image & Hin & Hev)|(v & Hv & _)]; [|done].
    apply cache_trace_fetch in Hev. eauto.
  - intros (image & -> & Hin). left. exists image. split; [done|].
    by apply cache_trace_fetch.
Qed.

Lemma sync_trace_put images w u b :
  EvPut u b ∈ sync_trace env images w <->
  (u ∈ desired images /\ u ∉ cached w) /\ env_fetch env u = Response true b.
Proof.
  rewrite sync_trace_elem by done. rewrite <- elem_of_to_fetch.
  rewrite elem_of_concat_map, !list_elem_of_fmap. split.
  - intros [(image & Hin & Hev)|(v & Hv & _)]; [|done].
    apply cache_trace_put in Hev as [-> Hf]. eauto.
  - intros ((image & -> & Hin) & Hf). left. exists image. split; [done|].
    by apply cache_trace_put.
Qed.

Lemma sync_trace_delete images w u :
  EvDelete u ∈ sync_trace env images w <-> u ∈ cached w /\ u ∉ desired images.
Proof.
  rewrite sync_trace_elem by done. rewrite <- elem_of_to_evict.
  rewrite elem_of_concat_map, !list_elem_of_fmap. split.
  - intros [(image & Hin & Hev)|(v & Hv & Hin)].
    + by apply cache_trace_delete in Hev.
    + by simplify_eq.
  - intros Hin. right. eauto.
Qed.

(** The record of a key after a pass. *)
Lemma get_sync_records images w u :
  IDB.get u (sync_records env images w) =
  if decide (u ∈ cached w /\ u ∉ desired images) then
    if forallb (env_delete env) (to_evict images w) then None
    else IDB.get u (records w)
  else if decide (u ∈ desired images /\ u ∉ cached w) then
    match cache_result env u with
    | Some b => Some (mkItem u b)
    | None => None
    end
  else IDB.get u (records w).
Proof.
  unfold sync_records, delete_records.
  assert (IDB.get u (foldl (cache_records env) (records w) (to_fetch images w)) =
          if decide (u ∈ desired images /\ u ∉ cached w) then
            match cache_result env u with
            | Some b => Some (mkItem u b)
            | None => None
            end
          else IDB.get u (records w)) as Hloop.
  { rewrite get_cache_loop.
    destruct (decide (u ∈ desired images /\ u ∉ cached w)) as [Hd|Hd].
    - destruct (cache_result env u); [|apply get_None, Hd].
      rewrite decide_True; [done | by apply elem_of_to_fetch].
    - destruct (cache_result env u); [|done].
      rewrite decide_False; [done | by rewrite elem_of_to_fetch]. }
  destruct (decide (u ∈ cached w /\ u ∉ desired images)) as [He|He].
  - destruct (forallb _ _).
    + rewrite get_delete_loop, decide_True; [done | by apply elem_of_to_evict].
    + rewrite Hloop, decide_False; [done | tauto].
  - destruct (forallb _ _); [|done].
    rewrite get_delete_loop, decide_False; [done | by rewrite elem_of_to_evict].
Qed.

End ClosedForms.

(** ** The reconciliation pass *)
Section Reconciliation.

Lemma cached_get u l : u ∈ IDB.keys l <-> IDB.get u l <> None.
Proof.
  split.
  - intros Hin Hn. by apply get_None in Hn.
  - intros Hn. destruct (decide (u ∈ IDB.keys l)) as [|Hnin]; [done|].
    by apply get_None in Hnin.
Qed.

Lemma to_evict_deleted env images w :
  (forall u, u ∈ cached w -> u ∉ desired images -> env_delete env u = true) ->
  forallb (env_delete env) (to_evict images w) = true.
Proof.
  intros Hdel. apply forallb_forall. intros u Hin.
  apply list_elem_of_In, elem_of_to_evict in Hin as [? ?]. by apply Hdel.
Qed.

End Reconciliation.

(** C1. Reconciliation convergence: when the store opens, the snapshot
    read succeeds, and every fetch, put and delete of the pass succeeds,
    one pass of [syncCache] ends normally and leaves the key set of the
    store equal to the desired set [D]: every key of [D] missing from the
    prior contents [C] is fetched and put (and then holds the fetched
    payload), every key of [C] outside [D] is deleted, and a key in both
    keeps its record, with no fetch, put or delete issued for it. *)
Theorem sync_converges env images w :
  available env w ->
  env_getAll env = true ->
  (forall u, u ∈ desired images -> u ∉ cached w ->
     exists b, env_fetch env u = Response true b /\ env_put env u = true) ->
  (forall u, u ∈ cached w -> u ∉ desired images -> env_delete env u = true) ->
  let out := syncCache env images w in
  result_of out = Ok tt /\
  (forall u, u ∈ cached (world_of out) <-> u ∈ desired images) /\
  (forall u, u ∈ desired images -> u ∉ cached w ->
     exists b, env_fetch env u = Response true b /\
       EvFetch u ∈ trace_of out /\ EvPut u b ∈ trace_of out /\
       IDB.get u (records (world_of out)) = Some (mkItem u b)) /\
  (forall u, u ∈ cached w -> u ∉ desired images ->
     EvDelete u ∈ trace_of out /\ u ∉ cached (world_of out)) /\
  (forall u, u ∈ cached w -> u ∈ desired images ->
     IDB.get u (records (world_of out)) = IDB.get u (records w) /\
     (EvFetch u ∉ trace_of out) /\ (forall b, EvPut u b ∉ trace_of out) /\
     (EvDelete u ∉ trace_of out)).
Proof.
  intros Hav Hall Hfetch Hdel out. subst out.
  rewrite syncCache_run by done. unfold result_of, world_of, trace_of, cached. simpl.
  pose proof (to_evict_deleted env images w Hdel) as Hforall.
  assert (forall u, IDB.get u (sync_records env images w) =
                    if decide (u ∈ desired images) then
                      if decide (u ∈ cached w) then IDB.get u (records w)
                      else match cache_result env u with
                           | Some b => Some (mkItem u b)
                           | None => None
                           end
                    else None) as Hget.
  { intros u. rewrite get_sync_records, Hforall.
    destruct (decide (u ∈ desired images)) as [Hd|Hd];
      destruct (decide (u ∈ cached w)) as [Hc|Hc].
    - rewrite !decide_False by tauto. done.
    - rewrite decide_False by tauto. by rewrite decide_True.
    - by rewrite decide_True.
    - rewrite !decide_False by tauto. by apply get_None. }
  split; [done|]. split; [|split; [|split]].
  - intros u. rewrite cached_get, Hget.
    destruct (decide (u ∈ desired images)) as [Hd|Hd]; [|tauto].
    destruct (decide (u ∈ cached w)) as [Hc|Hc].
    + split; [done|]. intros _. by apply cached_get.
    + destruct (Hfetch u Hd Hc) as (b & Hf & Hp).
      unfold cache_result. rewrite Hf, Hp. done.
  - intros u Hd Hc. destruct (Hfetch u Hd Hc) as (b & Hf & Hp).
    exists b. split; [done|]. split; [by apply sync_trace_fetch|].
    split; [by apply sync_trace_put|].
    rewrite Hget, decide_True, decide_False by done.
    unfold cache_result. by rewrite Hf, Hp.
  - intros u Hc Hd. split; [by apply sync_trace_delete|].
    apply get_None. by rewrite Hget, decide_False.
  - intros u Hc Hd. split; [by rewrite Hget, !decide_True|].
    rewrite sync_trace_fetch, sync_trace_delete.
    split; [tauto|]. split; [|tauto]. intros b. rewrite sync_trace_put. tauto.
Qed.

Lemma sync_converges_witness :
  available env_ok sample_world /\
  (forall u, u ∈ cached (world_of (syncCache env_ok sample_manifest sample_world))
             <-> u ∈ desired sample_manifest).
Proof.
  split; [by right|].
  refine (proj1 (proj2 (sync_converges env_ok sample_manifest sample_world _ _ _ _))).
  - by right.
  - reflexivity.
  - intros u _ _. exists payload_2. split; reflexivity.
  - intros u _ _. reflexivity.
Defined.

(** C2. Partial-failure tolerance: when the fetch of one key [k] of
    To-fetch fails (a network error or a response that is not ok), or its
    put fails, the pass still ends normally, still fetches every other key
    of To-fetch and puts what it fetched, and still deletes every key of
    To-evict; the failure costs the key [k] alone, which stays absent. *)
Theorem sync_partial_failure env images w k :
  available env w ->
  env_getAll env = true ->
  k ∈ desired images -> k ∉ cached w ->
  (forall b, env_fetch env k = Response true b -> env_put env k = false) ->
  (forall u, u ∈ cached w -> u ∉ desired images -> env_delete env u = true) ->
  let out := syncCache env images w in
  result_of out = Ok tt /\
  (k ∉ cached (world_of out)) /\
  (forall u, u ∈ desired images -> u ∉ cached w -> u <> k ->
     EvFetch u ∈ trace_of out /\
     forall b, env_fetch env u = Response true b ->
       EvPut u b ∈ trace_of out /\
       (env_put env u = true ->
        IDB.get u (records (world_of out)) = Some (mkItem u b))) /\
  (forall u, u ∈ cached w -> u ∉ desired images ->
     EvDelete u ∈ trace_of out /\ u ∉ cached (world_of out)) /\
  (forall u, u ∈ cached w -> u ∈ desired images ->
     IDB.get u (records (world_of out)) = IDB.get u (records w)).
Proof.
  intros Hav Hall Hk Hkc Hfail Hdel out. subst out.
  rewrite syncCache_run by done. unfold result_of, world_of, trace_of, cached. simpl.
  pose proof (to_evict_deleted env images w Hdel) as Hforall.
  split; [done|]. split; [|split; [|split]].
  - apply get_None. rewrite get_sync_records, Hforall.
    rewrite decide_False by tauto. rewrite decide_True by done.
    unfold cache_result.
    destruct (env_fetch env k) as [|[|] b] eqn:Hf; try done.
    by rewrite (Hfail b).
  - intros u Hd Hc Hne. split; [by apply sync_trace_fetch|].
    intros b Hf. split; [by apply sync_trace_put|].
    intros Hp. rewrite get_sync_records.
    rewrite decide_False by tauto. rewrite decide_True by done.
    unfold cache_result. by rewrite Hf, Hp.
  - intros u Hc Hd. split; [by apply sync_trace_delete|].
    apply get_None. rewrite get_sync_records, Hforall. by rewrite decide_True.
  - intros u Hc Hd. rewrite get_sync_records. by rewrite !decide_False by tauto.
Qed.

Lemma sync_partial_failure_witness :
  ("A" ∉ cached (world_of (syncCache env_A_404 sample_manifest sample_world))) /\
  IDB.get "C" (records (world_of (syncCache env_A_404 sample_manifest sample_world)))
    = Some (mkItem "C" payload_2) /\
  ("Z" ∉ cached (world_of (syncCache env_A_404 sample_manifest sample_world))).
Proof.
  assert ("A" ∈ desired sample_manifest) as HA by (apply elem_of_cons; by left).
  assert ("C" ∈ desired sample_manifest) as HC
    by (do 2 (apply elem_of_cons; right); apply elem_of_cons; by left).
  assert ("Z" ∈ cached sample_world) as HZ
    by (apply elem_of_cons; right; apply elem_of_cons; by left).
  assert (forall u : string, u ∉ cached sample_world <-> u <> "B" /\ u <> "Z") as Hc.
  { intros u. unfold cached, sample_world, IDB.keys. simpl.
    rewrite !not_elem_of_cons. pose proof (not_elem_of_nil u). tauto. }
  assert (forall u : string, u ∉ desired sample_manifest <->
                             u <> "A" /\ u <> "B" /\ u <> "C") as Hd.
  { intros u. unfold desired, sample_manifest. simpl.
    rewrite !not_elem_of_cons. pose proof (not_elem_of_nil u). tauto. }
  destruct (sync_partial_failure env_A_404 sample_manifest sample_world "A")
    as (_ & HnA & Hothers & Hevict & _).
  - by right.
  - reflexivity.
  - exact HA.
  - apply Hc. split; discriminate.
  - intros b. simpl. discriminate.
  - reflexivity.
  - split; [exact HnA|]. split.
    + refine (proj2 (proj2 (Hothers "C" HC _ _) payload_2 _) _);
        [apply Hc; split; discriminate | discriminate | reflexivity | reflexivity].
    + refine (proj2 (Hevict "Z" HZ _)). apply Hd. repeat split; discriminate.
Defined.

(** C10. A failed snapshot read skips the pass: when the store opened and
    [getAll] fails, no fetch, no put and no delete is issued, the records
    are what they were, the failure is logged, and the pass ends
    normally. *)
Theorem sync_skipped_on_getAll_error env images w :
  available env w ->
  env_getAll env = false ->
  let out := syncCache env images w in
  result_of out = Ok tt /\
  records (world_of out) = records w /\
  (forall u, EvFetch u ∉ trace_of out) /\
  (forall u b, EvPut u b ∉ trace_of out) /\
  (forall u, EvDelete u ∉ trace_of out) /\
  EvError "Error fetching cached items from IndexedDB:" ∈ trace_of out.
Proof.
  intros Hav Hall out. subst out.
  rewrite syncCache_getAll_fails by done.
  unfold result_of, world_of, trace_of. simpl.
  split; [done|]. split; [done|].
  assert (forall ev, ev ∈ (if db w then [] else [EvOpen]) ++
                       [EvGetAll; EvError "Error fetching cached items from IndexedDB:"] ->
                     ev = EvOpen \/ ev = EvGetAll \/
                     ev = EvError "Error fetching cached items from IndexedDB:") as Hev.
  { intros ev. rewrite elem_of_app, !elem_of_cons, elem_of_nil.
    destruct (db w); rewrite ?elem_of_cons, elem_of_nil; tauto. }
  repeat split.
  - intros u Hin. apply Hev in Hin. intuition discriminate.
  - intros u b Hin. apply Hev in Hin. intuition discriminate.
  - intros u Hin. apply Hev in Hin. intuition discriminate.
  - rewrite elem_of_app, !elem_of_cons. tauto.
Qed.

Lemma sync_skipped_on_getAll_error_witness :
  records (world_of (syncCache env_getAll_fails sample_manifest sample_world))
  = records sample_world.
Proof.
  refine (proj1 (proj2
    (sync_skipped_on_getAll_error env_getAll_fails sample_manifest sample_world _ _))).
  - by right.
  - reflexivity.
Defined.

(** ** The blob store *)
Section BlobStoreFacts.
Variable env : Env.

Lemma storeImage_available w u b :
  available env w -> env_put env u = true ->
  storeImage env u b w =
  (Ok tt, mkWorld (IDB.put (mkItem u b) (records w)) true,
   (if db w then [] else [EvOpen]) ++ [EvPut u b]).
Proof.
  intros Hav Hput. unfold storeImage.
  eapply bind_run; [by apply openDB_run|]. simpl. by rewrite Hput.
Qed.

Lemma storeImage_records w u b :
  records (world_of (storeImage env u b w)) = records w \/
  records (world_of (storeImage env u b w)) = IDB.put (mkItem u b) (records w).
Proof.
  unfold storeImage, bind, openDB, world_of.
  destruct (db w) eqn:Hdb; [|destruct (env_open env)];
    destruct (env_put env u); simpl; auto.
Qed.

Lemma getImage_records w u : records (world_of (getImage env u w)) = records w.
Proof.
  unfold getImage, bind, openDB, world_of.
  destruct (db w) eqn:Hdb; [|destruct (env_open env)];
    destruct (env_get env u); simpl; auto.
Qed.

Lemma wf_delete_loop us l :
  IDB.wf l -> IDB.wf (foldl (fun l u => IDB.delete u l) l us).
Proof.
  revert l. induction us as [|k t IH]; intros l Hwf; simpl; [done|].
  by apply IH, wf_delete.
Qed.

Lemma wf_delete_records us l : IDB.wf l -> IDB.wf (delete_records env l us).
Proof.
  intros Hwf. unfold delete_records. destruct (forallb _ _); [|done].
  by apply wf_delete_loop.
Qed.

Lemma wf_cache_loop images l :
  IDB.wf l -> IDB.wf (foldl (cache_records env) l images).
Proof.
  revert l. induction images as [|image t IH]; intros l Hwf; simpl; [done|].
  apply IH. unfold cache_records. destruct (cache_result _ _); [|done].
  by apply wf_put.
Qed.

Lemma wf_syncCache images w :
  IDB.wf (records w) -> IDB.wf (records (world_of (syncCache env images w))).
Proof.
  intros Hwf.
  destruct (db w) eqn:Hdb; [|destruct (env_open env) eqn:Hopen].
  3:{ by rewrite syncCache_unavailable. }
  all: assert (available env w) as Hav by (unfold available; auto).
  all: destruct (env_getAll env) eqn:Hall;
    [rewrite syncCache_run by done | by rewrite syncCache_getAll_fails].
  all: by apply wf_delete_records, wf_cache_loop.
Qed.

Lemma wf_exec_op op w :
  IDB.wf (records w) -> IDB.wf (records (exec_op env op w)).
Proof.
  intros Hwf. destruct op as [k b|k|k|images]; simpl.
  - destruct (storeImage_records w k b) as [-> | ->]; [done | by apply wf_put].
  - by rewrite getImage_records.
  - by apply (wf_delete_records [k]).
  - by apply wf_syncCache.
Qed.

Lemma wf_exec_ops ops w :
  IDB.wf (records w) -> IDB.wf (records (exec_ops env ops w)).
Proof.
  revert w. induction ops as [|op t IH]; intros w Hwf; simpl; [done|].
  by apply IH, wf_exec_op.
Qed.

End BlobStoreFacts.

(** C4. Idempotent put: on a store that opens and whose requests for
    [k] succeed, [storeImage(k, b1)], then [storeImage(k, b2)], then
    [getImage(k)] returns [b2], and the store then holds exactly one record
    for [k]. *)
Theorem put_put_get env w k b1 b2 :
  available env w ->
  env_put env k = true ->
  env_get env k = true ->
  IDB.wf (records w) ->
  let out := (storeImage env k b1 ;; storeImage env k b2 ;; getImage env k) w in
  result_of out = Ok (Some b2) /\
  IDB.count k (records (world_of out)) = 1.
Proof.
  intros Hav Hput Hget Hwf out. subst out.
  erewrite bind_run; [| by apply storeImage_available |].
  2:{ eapply bind_run.
      - rewrite storeImage_run, Hput. reflexivity.
      - rewrite getImage_run, Hget. reflexivity. }
  unfold result_of, world_of. simpl. split.
  - by rewrite (get_put_eq (mkItem k b2)).
  - apply (count_put (mkItem k b2)). by apply wf_put.
Qed.

Lemma put_put_get_witness :
  result_of ((storeImage env_ok "B" payload_1 ;; storeImage env_ok "B" payload_2 ;;
              getImage env_ok "B") sample_world) = Ok (Some payload_2) /\
  IDB.count "B" (records (world_of
    ((storeImage env_ok "B" payload_1 ;; storeImage env_ok "B" payload_2 ;;
      getImage env_ok "B") sample_world))) = 1.
Proof.
  apply (put_put_get env_ok sample_world "B" payload_1 payload_2).
  - by right.
  - reflexivity.
  - reflexivity.
  - unfold IDB.wf, IDB.keys, sample_world. simpl.
    repeat constructor; by vm_compute.
Defined.

(** C5. Unique keys: whatever operations run on the store from its empty
    state (puts, gets, deletes and whole passes, succeeding or failing),
    no two records of the store have the same key. *)
Theorem no_duplicate_keys env ops :
  NoDup (cached (exec_ops env ops (mkWorld [] false))).
Proof.
  apply wf_NoDup, wf_exec_ops. constructor.
Qed.

(** ** The hook *)
Section HookFacts.

Lemma effects_run_cleanup h :
  effects (run_cleanup h) =
  match cleanup h with
  | Some j =>
      match effects h !! j with
      | Some e => <[j := mkEffect (eff_imageUrl e) (eff_source e) false (settled e)]>
                    (effects h)
      | None => effects h
      end
  | None => effects h
  end.
Proof.
  unfold run_cleanup. destruct (cleanup h) as [j|]; [|done].
  destruct (effects h !! j) as [e|]; [|done].
  destruct (eff_source e) as [s|]; [|done]. by destruct (startsWith s "blob:").
Qed.

Lemma cleanup_run_cleanup h : cleanup (run_cleanup h) = None.
Proof.
  unfold run_cleanup. destruct (cleanup h) as [j|] eqn:Hc; [|done].
  destruct (effects h !! j) as [e|]; [|done].
  destruct (eff_source e) as [s|]; [|done]. by destruct (startsWith s "blob:").
Qed.

Lemma source_run_cleanup h : source (run_cleanup h) = source h.
Proof.
  unfold run_cleanup. destruct (cleanup h) as [j|]; [|done].
  destruct (effects h !! j) as [e|]; [|done].
  destruct (eff_source e) as [s|]; [|done]. by destruct (startsWith s "blob:").
Qed.

Lemma source_run_effect h : source (run_effect h) = source h.
Proof. unfold run_effect. by destruct (arg h). Qed.

Lemma effects_settle i s h :
  effects (settle i s h) =
  match effects h !! i with
  | Some e =>
      if settled e then effects h
      else <[i := mkEffect (eff_imageUrl e) (eff_source e) (isMounted e) true]> (effects h)
  | None => effects h
  end.
Proof.
  unfold settle. destruct (effects h !! i) as [e|]; [|done].
  destruct (settled e); [done|]. destruct s as [[b|]|]; by destruct (isMounted e).
Qed.

Lemma cleanup_settle i s h : cleanup (settle i s h) = cleanup h.
Proof.
  unfold settle. destruct (effects h !! i) as [e|]; [|done].
  destruct (settled e); [done|]. destruct s as [[b|]|]; by destruct (isMounted e).
Qed.

(** An effect that was cleaned up stays so. *)
Lemma superseded_insert (l : list Effect) i j e e' :
  l !! j = Some e -> (isMounted e = false -> isMounted e' = false) ->
  (exists x, l !! i = Some x /\ isMounted x = false) ->
  exists x, <[j := e']> l !! i = Some x /\ isMounted x = false.
Proof.
  intros Hj Himp (x & Hi & Hx). destruct (decide (i = j)) as [->|Hne].
  - exists e'. split.
    + apply list_lookup_insert_eq. by eapply lookup_lt_Some.
    + apply Himp. congruence.
  - exists x. split; [|done]. by rewrite list_lookup_insert_ne.
Qed.

Lemma superseded_run_cleanup h i : superseded h i -> superseded (run_cleanup h) i.
Proof.
  unfold superseded. rewrite effects_run_cleanup.
  destruct (cleanup h) as [j|]; [|done].
  destruct (effects h !! j) as [e|] eqn:Hj; [|done].
  by apply superseded_insert with e.
Qed.

Lemma superseded_run_effect h i : superseded h i -> superseded (run_effect h) i.
Proof.
  unfold superseded, run_effect. intros (x & Hi & Hx).
  destruct (arg h); [|eauto]. simpl. exists x. split; [|done].
  by apply lookup_app_l_Some.
Qed.

Lemma superseded_step h i ev : superseded h i -> superseded (step h ev) i.
Proof.
  intros Hs. destruct ev as [a|j s|]; simpl.
  - unfold render. destruct (mounted h); [|done]. case_decide; [done|].
    apply superseded_run_effect. simpl. by apply superseded_run_cleanup in Hs.
  - unfold superseded. rewrite effects_settle.
    destruct (effects h !! j) as [e|] eqn:Hj; [|done].
    destruct (settled e); [done|]. by apply superseded_insert with e.
  - unfold unmount. destruct (mounted h); [|done].
    by apply superseded_run_cleanup in Hs.
Qed.

Lemma superseded_run h i evs : superseded h i -> superseded (run h evs) i.
Proof.
  revert h. induction evs as [|ev t IH]; intros h Hs; simpl; [done|].
  by apply IH, superseded_step.
Qed.

(** The settlement of a run that was cleaned up is discarded. *)
Lemma settle_superseded h i s :
  superseded h i -> observable (settle i s h) = observable h.
Proof.
  intros (e & Hi & He). unfold settle. rewrite Hi.
  destruct (settled e); [done|]. destruct s as [[b|]|]; by rewrite He.
Qed.

Lemma cleanup_bound_step h ev : cleanup_bound h -> cleanup_bound (step h ev).
Proof.
  unfold cleanup_bound. intros Hb i. destruct ev as [a|j s|]; simpl.
  - unfold render. destruct (mounted h); [|apply Hb]. case_decide; [apply Hb|].
    unfold run_effect. simpl. destruct a as [u|]; simpl.
    + intros [= <-]. rewrite length_app. simpl. lia.
    + by rewrite cleanup_run_cleanup.
  - rewrite cleanup_settle, effects_settle. intros Hc. apply Hb in Hc.
    destruct (effects h !! j) as [e|]; [|done].
    destruct (settled e); [done|]. by rewrite length_insert.
  - unfold unmount. destruct (mounted h); [|apply Hb]. simpl.
    by rewrite cleanup_run_cleanup.
Qed.

Lemma cleanup_bound_reachable a evs : cleanup_bound (run (useOfflineImage a) evs).
Proof.
  assert (cleanup_bound (useOfflineImage a)) as H0.
  { intros i. unfold useOfflineImage, run_effect. simpl.
    destruct a; simpl; [|done]. intros [= <-]. lia. }
  revert H0. generalize (useOfflineImage a). clear a.
  induction evs as [|ev t IH]; intros h Hb; simpl; [done|].
  by apply IH, cleanup_bound_step.
Qed.

(** A change of the argument cleans up the run in force. *)
Lemma render_supersedes h i a :
  mounted h = true -> cleanup h = Some i -> i < length (effects h) ->
  a <> arg h -> superseded (render a h) i.
Proof.
  intros Hm Hc Hlt Hne. unfold render. rewrite Hm, decide_False by done.
  apply superseded_run_effect. unfold superseded. simpl.
  rewrite effects_run_cleanup, Hc.
  destruct (lookup_lt_is_Some_2 (effects h) i Hlt) as [e He]. rewrite He.
  eexists. split; [by apply list_lookup_insert_eq | done].
Qed.

Lemma source_step_is_Some h ev : is_Some (source h) -> is_Some (source (step h ev)).
Proof.
  intros Hs. destruct ev as [a|j s|]; simpl.
  - unfold render. destruct (mounted h); [|done]. case_decide; [done|].
    by rewrite source_run_effect; simpl; rewrite source_run_cleanup.
  - unfold settle. destruct (effects h !! j) as [e|]; [|done].
    destruct (settled e); [done|].
    destruct s as [[b|]|]; destruct (isMounted e); simpl; eauto.
  - unfold unmount. destruct (mounted h); [|done]. simpl.
    by rewrite source_run_cleanup.
Qed.

Lemma source_run_is_Some h evs : is_Some (source h) -> is_Some (source (run h evs)).
Proof.
  revert h. induction evs as [|ev t IH]; intros h Hs; simpl; [done|].
  by apply IH, source_step_is_Some.
Qed.

End HookFacts.

Lemma getImage_available env w u :
  available env w -> env_get env u = true ->
  getImage env u w =
  (Ok (blob <$> IDB.get u (records w)), mkWorld (records w) true,
   (if db w then [] else [EvOpen]) ++ [EvGet u]).
Proof.
  intros Hav Hget. unfold getImage.
  eapply bind_run; [by apply openDB_run|]. simpl. by rewrite Hget.
Qed.

(** C3. The object URL that a lookup creates is not released when the
    hook is torn down, and the one before it is still live when the next
    one is created: the cleanup of a run revokes the [source] of the render
    that started the run, not the URL that the run created. Mounted on the
    cached [A] and unmounted after the lookup, the hook leaves one object
    URL live and has revoked nothing; with the argument changed to the
    cached [C] in between, two object URLs are live at once, and the
    unmount revokes the older one and leaves the one on display live. *)
Theorem object_url_outlives_teardown :
  let sA := lookup env_ok synced_world "A" in
  let sC := lookup env_ok synced_world "C" in
  let h1 := run (useOfflineImage (Some "A")) [Settle 0 sA; Unmount] in
  let h2 := run (useOfflineImage (Some "A")) [Settle 0 sA; Render (Some "C"); Settle 1 sC] in
  let h3 := step h2 Unmount in
  (mounted h1 = false /\ live h1 = 1 /\ revocations h1 = []) /\
  (source h2 = Some "blob:1" /\ objectURLs h2 = ["blob:1"; "blob:0"] /\ live h2 = 2) /\
  (mounted h3 = false /\ objectURLs h3 = ["blob:1"] /\ revocations h3 = ["blob:0"]).
Proof. vm_compute. repeat split. Qed.

(** C6. Fallback on absence: when the store works and holds no record
    for [u], [getImage(u)] resolves with null, which is no error, and the
    lookup in progress for [u] commits [u] itself as the output, creating
    no object URL. *)
Theorem fallback_when_absent env w h i u :
  available env w ->
  env_get env u = true ->
  u ∉ cached w ->
  resolving h i u ->
  result_of (getImage env u w) = Ok None /\
  source (settle i (lookup env w u) h) = Some u /\
  objectURLs (settle i (lookup env w u) h) = objectURLs h.
Proof.
  intros Hav Hget Habs (_ & e & Hi & Hu & Hm & Hs).
  assert (result_of (getImage env u w) = Ok None) as Hres.
  { rewrite getImage_available by done. unfold result_of. simpl.
    apply get_None in Habs. by rewrite Habs. }
  split; [done|]. unfold lookup. rewrite Hres.
  unfold settle. rewrite Hi, Hs, Hm, Hu. done.
Qed.

Lemma fallback_when_absent_witness :
  source (settle 0 (lookup env_ok synced_world "Z") (useOfflineImage (Some "Z")))
  = Some "Z".
Proof.
  refine (proj1 (proj2
    (fallback_when_absent env_ok synced_world (useOfflineImage (Some "Z")) 0 "Z" _ _ _ _))).
  - by left.
  - reflexivity.
  - apply (bool_decide_unpack _). by vm_compute.
  - split; [reflexivity|]. eexists. repeat split; reflexivity.
Defined.

(** C7. A failed lookup after a change of the argument leaves the output
    of the URL before it: mounted on [A] (output [A]) and then given [B]
    while every [get] fails, or while the database cannot be opened, the
    promise of [getImage] is rejected and the hook still returns [A], not
    [B]. *)
Theorem lookup_failure_keeps_stale_source :
  let h1 := run (useOfflineImage (Some "A"))
                [Settle 0 (lookup env_get_fails synced_world "A")] in
  let h2 := run h1 [Render (Some "B");
                    Settle 1 (lookup env_get_fails synced_world "B")] in
  let h3 := run (useOfflineImage (Some "A"))
                [Settle 0 (lookup env_open_fails sample_world "A");
                 Render (Some "B");
                 Settle 1 (lookup env_open_fails sample_world "B")] in
  lookup env_get_fails synced_world "B" = Rejected "Error getting image" /\
  lookup env_open_fails sample_world "B" = Rejected "Error opening DB" /\
  source h1 = Some "A" /\
  (arg h2 = Some "B" /\ source h2 = Some "A") /\
  (arg h3 = Some "B" /\ source h3 = Some "A").
Proof. vm_compute. repeat split. Qed.

(** C8, as the claim states it: the output would be "none" exactly while
    a lookup is in progress or the argument is "none". It fails right
    after the mount on [A]: a lookup is in progress and the output is
    [A]. *)
Lemma output_none_while_pending_fails :
  ~ (forall a evs,
       let h := run (useOfflineImage a) evs in
       source h = None <-> (pending h \/ arg h = None)).
Proof.
  intros H. specialize (H (Some "A") []). simpl in H.
  destruct H as [_ H]. discriminate H.
  left. exists 0, "A". split; [reflexivity|].
  eexists. repeat split; reflexivity.
Qed.

(** C8, amended. The state starts as the argument of the first render, so
    right after the mount the output is the URL itself, and "none" only
    for the argument "none"; a later render, whatever its argument (another
    URL or "none"), leaves the output as it is; and the output of a hook
    mounted on a URL is never "none". *)
Theorem output_follows_commits :
  (forall a, source (useOfflineImage a) = a) /\
  (forall a h, source (render a h) = source h) /\
  (forall u evs, is_Some (source (run (useOfflineImage (Some u)) evs))).
Proof.
  split; [|split].
  - intros a. unfold useOfflineImage. by rewrite source_run_effect.
  - intros a h. unfold render. destruct (mounted h); [|done].
    case_decide; [done|]. by rewrite source_run_effect; simpl; rewrite source_run_cleanup.
  - intros u evs. apply source_run_is_Some.
    unfold useOfflineImage. rewrite source_run_effect. simpl. eauto.
Qed.

(** C9. Superseding resolutions: once the argument of a mounted hook has
    changed from [u1] to [u2], the settlement of the lookup for [u1],
    whenever it arrives and whatever it carries, changes neither the
    output, nor the object URLs that are live, nor the revocations, nor
    the cleanup in force, and it leaves every other run of the effect as
    it is. *)
Theorem stale_settlement_discarded a evs0 i u2 evs s :
  let h := run (useOfflineImage a) evs0 in
  mounted h = true ->
  cleanup h = Some i ->
  arg h <> Some u2 ->
  let h' := run (render (Some u2) h) evs in
  observable (settle i s h') = observable h' /\
  (forall j, j <> i -> effects (settle i s h') !! j = effects h' !! j).
Proof.
  intros h Hm Hc Hne h'.
  assert (superseded h' i) as Hs.
  { apply superseded_run, render_supersedes; [exact Hm | exact Hc | | congruence].
    by apply (cleanup_bound_reachable a evs0). }
  split; [by apply settle_superseded|].
  intros j Hj. rewrite effects_settle.
  destruct (effects h' !! i) as [e|]; [|done].
  destruct (settled e); [done|]. by rewrite list_lookup_insert_ne.
Qed.

Lemma stale_settlement_discarded_witness :
  let h' := run (render (Some "C") (run (useOfflineImage (Some "A")) []))
                [Settle 1 (Resolved (Some payload_2))] in
  observable (settle 0 (Resolved (Some payload_1)) h') = observable h'.
Proof.
  refine (proj1 (stale_settlement_discarded (Some "A") [] 0 "C"
                   [Settle 1 (Resolved (Some payload_2))]
                   (Resolved (Some payload_1)) _ _ _)).
  - reflexivity.
  - reflexivity.
  - discriminate.
Defined.

(** * Further properties of the cache layer *)

(** ** [openDB], [storeImage], [getImage] *)

Lemma db_exec_op env op w : db w = true -> db (exec_op env op w) = true.
Proof.
  intros Hdb. destruct w as [l d]. simpl in Hdb. subst d.
  destruct op as [k b|k|k|images]; simpl.
  - rewrite storeImage_run. by destruct (env_put env k).
  - rewrite getImage_run. by destruct (env_get env k).
  - done.
  - destruct (env_getAll env) eqn:Hall.
    + rewrite syncCache_run; [done | by left | done].
    + rewrite syncCache_getAll_fails; [done | by left | done].
Qed.

Lemma cache_trace_no_open env image : EvOpen ∉ cache_trace env image.
Proof.
  unfold cache_trace.
  destruct (env_fetch env (imageUrl image)) as [|[|] b];
    [|destruct (env_put env (imageUrl image))|];
    rewrite !elem_of_cons, elem_of_nil; intuition discriminate.
Qed.

Lemma sync_trace_no_open env images w : db w = true -> EvOpen ∉ sync_trace env images w.
Proof.
  intros Hdb Hin. unfold sync_trace in Hin. rewrite Hdb in Hin.
  rewrite !elem_of_app in Hin.
  destruct Hin as [Hin|[Hin|[Hin|[Hin|Hin]]]].
  - by apply elem_of_nil in Hin.
  - by apply list_elem_of_singleton in Hin.
  - case_bool_decide; [|by apply elem_of_nil in Hin].
    rewrite elem_of_app, list_elem_of_singleton, elem_of_app,
      list_elem_of_singleton, elem_of_concat_map in Hin.
    destruct Hin as [?|[(image & _ & Hin)|?]]; try done.
    by apply cache_trace_no_open in Hin.
  - case_bool_decide; [|by apply elem_of_nil in Hin].
    rewrite elem_of_app, list_elem_of_singleton, elem_of_app,
      list_elem_of_singleton, list_elem_of_fmap in Hin.
    destruct Hin as [?|[(u & ? & _)|?]]; done.
  - destruct (_ && _); [by apply list_elem_of_singleton in Hin|by apply elem_of_nil in Hin].
Qed.

Lemma trace_op_no_open env op w : db w = true -> EvOpen ∉ trace_op env op w.
Proof.
  intros Hdb. destruct w as [l d]. simpl in Hdb. subst d.
  destruct op as [k b|k|k|images]; simpl.
  - rewrite storeImage_run. destruct (env_put env k); simpl;
      rewrite !not_elem_of_cons; repeat split; try done; apply not_elem_of_nil.
  - rewrite getImage_run. destruct (env_get env k); simpl;
      rewrite !not_elem_of_cons; repeat split; try done; apply not_elem_of_nil.
  - unfold trace_of. simpl. rewrite not_elem_of_cons. split; [done|apply not_elem_of_nil].
  - destruct (env_getAll env) eqn:Hall.
    + rewrite syncCache_run; [|by left|done]. by apply sync_trace_no_open.
    + rewrite syncCache_getAll_fails; [|by left|done]. unfold trace_of. simpl.
      rewrite !not_elem_of_cons. repeat split; try done. apply not_elem_of_nil.
Qed.

(** X1. The handle is reused: once the module-level handle [db] is set,
    no operation on the store, in any order and whatever succeeds or fails
    afterwards, calls [indexedDB.open] again. *)
Theorem handle_opened_once env ops w :
  db w = true -> EvOpen ∉ trace_ops env ops w.
Proof.
  revert w. induction ops as [|op t IH]; intros w Hdb; simpl.
  - apply not_elem_of_nil.
  - rewrite elem_of_app. intros [Hin|Hin].
    + by apply (trace_op_no_open env op w).
    + by apply (IH (exec_op env op w)); [apply db_exec_op|].
Qed.

Lemma handle_opened_once_witness :
  EvOpen ∉ trace_ops env_open_fails
    [OpGet "A"; OpSync sample_manifest; OpPut "A" payload_1] synced_world.
Proof. apply handle_opened_once. reflexivity. Defined.

(** X2. Store and read back: on a store that can be used, whatever it
    holds, a successful [storeImage(k, b)] followed by [getImage(k)]
    returns [b], and [getImage(k')] for any other key returns what it
    returned before the put. *)
Theorem store_then_get env w k b :
  available env w ->
  env_put env k = true ->
  let w' := world_of (storeImage env k b w) in
  (env_get env k = true -> result_of (getImage env k w') = Ok (Some b)) /\
  (forall k', k' <> k -> result_of (getImage env k' w') = result_of (getImage env k' w)).
Proof.
  intros Hav Hput w'. subst w'. rewrite storeImage_available by done.
  unfold world_of. simpl. split.
  - intros Hget. rewrite getImage_run, Hget. unfold result_of. simpl.
    by rewrite (get_put_eq (mkItem k b)).
  - intros k' Hne. rewrite getImage_run.
    destruct (env_get env k') eqn:Hget.
    + rewrite getImage_available by done. unfold result_of. simpl.
      by rewrite (get_put_ne k' (mkItem k b)).
    + unfold getImage, bind. rewrite openDB_run by done. simpl. by rewrite Hget.
Qed.

Lemma store_then_get_witness :
  result_of (getImage env_ok "Q" (world_of (storeImage env_ok "Q" payload_2 sample_world)))
  = Ok (Some payload_2).
Proof.
  refine (proj1 (store_then_get env_ok sample_world "Q" payload_2 _ _) _).
  - by right.
  - reflexivity.
  - reflexivity.
Defined.

(** X3. A put that does not succeed changes nothing: when the database
    cannot be opened, [storeImage] is rejected with the reason of [openDB]
    before any [put] request is issued; when the [put] request fails, it is
    rejected with its own reason; in both cases the records are what they
    were. *)
Theorem storeImage_failure env w k b :
  (db w = false -> env_open env = false ->
     result_of (storeImage env k b w) = Err "Error opening DB" /\
     world_of (storeImage env k b w) = w /\
     (forall u c, EvPut u c ∉ trace_of (storeImage env k b w))) /\
  (available env w -> env_put env k = false ->
     result_of (storeImage env k b w) = Err "Error storing image" /\
     records (world_of (storeImage env k b w)) = records w).
Proof.
  split.
  - intros Hdb Hopen. unfold storeImage, bind, openDB. rewrite Hdb, Hopen.
    unfold result_of, world_of, trace_of. simpl. repeat split.
    intros u c. rewrite !not_elem_of_cons. repeat split; try done. apply not_elem_of_nil.
  - intros Hav Hput. unfold storeImage, bind. rewrite openDB_run by done.
    simpl. by rewrite Hput.
Qed.

(** X4. Reading never writes: [getImage], whatever its outcome, leaves
    the records as they are and issues no put and no delete; on a store
    that cannot be opened it is rejected before any [get] request. *)
Theorem getImage_read_only env w k :
  records (world_of (getImage env k w)) = records w /\
  (forall u c, EvPut u c ∉ trace_of (getImage env k w)) /\
  (forall u, EvDelete u ∉ trace_of (getImage env k w)) /\
  (db w = false -> env_open env = false ->
     result_of (getImage env k w) = Err "Error opening DB" /\
     forall u, EvGet u ∉ trace_of (getImage env k w)).
Proof.
  split; [apply getImage_records|].
  assert (forall ev, ev ∈ trace_of (getImage env k w) ->
            ev = EvOpen \/ ev = EvGet k \/ (exists m, ev = EvError m)) as Hev.
  { intros ev. unfold getImage, bind, openDB, trace_of.
    destruct (db w); [|destruct (env_open env)];
      destruct (env_get env k); simpl;
      rewrite ?elem_of_cons, elem_of_nil; intuition eauto. }
  split; [|split].
  - intros u c Hin. apply Hev in Hin as [?|[?|[m ?]]]; done.
  - intros u Hin. apply Hev in Hin as [?|[?|[m ?]]]; done.
  - intros Hdb Hopen. unfold getImage, bind, openDB. rewrite Hdb, Hopen.
    unfold result_of, trace_of. simpl. split; [done|].
    intros u. rewrite !not_elem_of_cons. repeat split; try done. apply not_elem_of_nil.
Qed.

Lemma storeImage_failure_witness :
  result_of (storeImage env_open_fails "A" payload_1 sample_world) = Err "Error opening DB".
Proof.
  refine (proj1 (proj1 (storeImage_failure env_open_fails sample_world "A" payload_1) _ _));
    reflexivity.
Defined.

Lemma getImage_read_only_witness :
  result_of (getImage env_open_fails "A" sample_world) = Err "Error opening DB".
Proof.
  refine (proj1 (proj2 (proj2 (proj2
    (getImage_read_only env_open_fails sample_world "A"))) _ _)); reflexivity.
Defined.

(** ** [syncCache] *)

Lemma filter_none {A} (P : A -> Prop) `{!forall x, Decision (P x)} (l : list A) :
  (forall x, x ∈ l -> ~ P x) -> filter P l = [].
Proof.
  intros Hn. apply elem_of_nil_inv. intros x Hin.
  apply list_elem_of_filter in Hin as [HP Hin]. by apply (Hn x).
Qed.

Lemma to_fetch_nil images w :
  (forall u, u ∈ desired images -> u ∈ cached w) -> to_fetch images w = [].
Proof.
  intros Hsub. unfold to_fetch, imagesToCache, js_set. apply filter_none.
  intros image Hin Hn. apply Hn. rewrite elem_of_remove_dups. apply Hsub.
  unfold desired. apply list_elem_of_fmap. eauto.
Qed.

Lemma to_evict_nil images w :
  (forall u, u ∈ cached w -> u ∈ desired images) -> to_evict images w = [].
Proof.
  intros Hsub. unfold to_evict, urlsToRemove, js_set. apply filter_none.
  intros u Hin Hn. apply Hn. rewrite elem_of_remove_dups in *. by apply Hsub.
Qed.

(** X5. Nothing to do: on a store that can be used and already holds
    exactly the desired keys, a pass whose snapshot read succeeds issues
    no fetch, no put and no delete; it reads the snapshot, logs that the
    cache is up to date, and leaves every record as it is. *)
Theorem sync_up_to_date env images w :
  available env w ->
  env_getAll env = true ->
  (forall u, u ∈ cached w <-> u ∈ desired images) ->
  syncCache env images w =
  (Ok tt, mkWorld (records w) true,
   (if db w then [] else [EvOpen]) ++ [EvGetAll; EvLog "Image cache is up to date."]).
Proof.
  intros Hav Hall Heq. rewrite syncCache_run by done.
  unfold sync_records, sync_trace.
  rewrite to_fetch_nil by (intros u; apply Heq).
  rewrite to_evict_nil by (intros u; apply Heq).
  done.
Qed.

Lemma sync_up_to_date_witness :
  syncCache env_A_404 sample_manifest synced_world =
  (Ok tt, synced_world, [EvGetAll; EvLog "Image cache is up to date."]).
Proof.
  apply (sync_up_to_date env_A_404 sample_manifest synced_world).
  - by left.
  - reflexivity.
  - intros u. change (cached synced_world) with ["A"; "B"; "C"].
    change (desired sample_manifest) with ["A"; "B"; "C"]. reflexivity.
Defined.

(** X6. No store, no pass: when the handle is not set and the database
    cannot be opened, the pass ends normally after logging the two errors;
    it reads no snapshot, issues no fetch, no put and no delete, and the
    world is what it was. *)
Theorem sync_without_store env images w :
  db w = false ->
  env_open env = false ->
  let out := syncCache env images w in
  result_of out = Ok tt /\
  world_of out = w /\
  (EvGetAll ∉ trace_of out) /\
  (forall u, EvFetch u ∉ trace_of out) /\
  (forall u b, EvPut u b ∉ trace_of out) /\
  (forall u, EvDelete u ∉ trace_of out).
Proof.
  intros Hdb Hopen out. subst out. rewrite syncCache_unavailable by done.
  unfold result_of, world_of, trace_of. simpl.
  assert (forall ev, (forall m, ev <> EvError m) -> ev <> EvOpen ->
            ev ∉ [EvOpen; EvError "IndexedDB error:"; EvError "Error during cache sync:"])
    as Hev.
  { intros ev He Ho. rewrite !not_elem_of_cons. repeat split; try done.
    apply not_elem_of_nil. }
  split; [done|]. split; [done|]. split; [by apply Hev|].
  split; [intros u; by apply Hev|]. split; [intros u b; by apply Hev|].
  intros u; by apply Hev.
Qed.

Lemma sync_without_store_witness :
  world_of (syncCache env_open_fails sample_manifest sample_world) = sample_world.
Proof.
  refine (proj1 (proj2
    (sync_without_store env_open_fails sample_manifest sample_world _ _))); reflexivity.
Defined.

(** X7. An empty manifest empties the store: with no image required, a
    pass on a store that can be used, whose snapshot read and deletes
    succeed, fetches nothing and leaves no record. *)
Theorem sync_empty_manifest env w :
  available env w ->
  env_getAll env = true ->
  (forall u, u ∈ cached w -> env_delete env u = true) ->
  let out := syncCache env [] w in
  result_of out = Ok tt /\
  records (world_of out) = [] /\
  (forall u, EvFetch u ∉ trace_of out) /\
  (forall u, u ∈ cached w -> EvDelete u ∈ trace_of out).
Proof.
  intros Hav Hall Hdel out. subst out. rewrite syncCache_run by done.
  unfold result_of, world_of, trace_of. simpl.
  assert (forall u : string, u ∉ desired []) as Hd by (intros u; apply not_elem_of_nil).
  split; [done|]. split; [|split].
  - assert (IDB.keys (sync_records env [] w) = []) as Hk.
    { apply elem_of_nil_inv. intros u. apply get_None.
      rewrite get_sync_records.
      rewrite to_evict_deleted by (intros v Hv _; by apply Hdel).
      destruct (decide (u ∈ cached w /\ u ∉ desired [])) as [|Hn]; [done|].
      rewrite decide_False by (intros [H _]; by apply (Hd u)).
      apply get_None. intros Hin. apply Hn. split; [done|apply Hd]. }
    unfold IDB.keys in Hk. by apply fmap_nil_inv in Hk.
  - intros u. rewrite sync_trace_fetch. intros [H _]. by apply (Hd u).
  - intros u Hin. apply sync_trace_delete. split; [done|apply Hd].
Qed.

Lemma sync_empty_manifest_witness :
  records (world_of (syncCache env_ok [] sample_world)) = [].
Proof.
  refine (proj1 (proj2 (sync_empty_manifest env_ok sample_world _ _ _))).
  - by right.
  - reflexivity.
  - intros u _. reflexivity.
Defined.

(** X8. A failed key is tried again by the next pass: a key of To-fetch
    whose fetch or put failed is still desired and still absent after the
    pass, so the next pass over the same manifest fetches it again, and
    stores it when its fetch and put then succeed. *)
Theorem failed_key_retried env env' images w k :
  available env w ->
  env_getAll env = true ->
  k ∈ desired images -> k ∉ cached w ->
  (forall b, env_fetch env k = Response true b -> env_put env k = false) ->
  env_getAll env' = true ->
  let w1 := world_of (syncCache env images w) in
  let out := syncCache env' images w1 in
  (k ∉ cached w1) /\
  EvFetch k ∈ trace_of out /\
  (forall b, env_fetch env' k = Response true b -> env_put env' k = true ->
     IDB.get k (records (world_of out)) = Some (mkItem k b)).
Proof.
  intros Hav Hall Hk Hkc Hfail Hall' w1 out.
  assert (k ∉ cached w1) as Hk1.
  { subst w1. rewrite syncCache_run by done. unfold world_of, cached. simpl.
    apply get_None. rewrite get_sync_records.
    rewrite decide_False by tauto. rewrite decide_True by done.
    unfold cache_result.
    destruct (env_fetch env k) as [|[|] b] eqn:Hf; try done.
    by rewrite (Hfail b). }
  assert (db w1 = true) as Hdb1.
  { subst w1. by rewrite syncCache_run. }
  subst out. rewrite syncCache_run; [|by left|done].
  unfold world_of, trace_of. simpl.
  split; [done|]. split; [by apply sync_trace_fetch|].
  intros b Hf Hp. rewrite get_sync_records.
  rewrite decide_False by tauto. rewrite decide_True by done.
  unfold cache_result. by rewrite Hf, Hp.
Qed.

Lemma failed_key_retried_witness :
  IDB.get "A" (records (world_of (syncCache env_ok sample_manifest
    (world_of (syncCache env_A_404 sample_manifest sample_world)))))
  = Some (mkItem "A" payload_2).
Proof.
  refine (proj2 (proj2 (failed_key_retried env_A_404 env_ok sample_manifest
                          sample_world "A" _ _ _ _ _ _)) payload_2 _ _).
  - by right.
  - reflexivity.
  - apply elem_of_cons. by left.
  - apply (bool_decide_unpack _). by vm_compute.
  - intros b. simpl. discriminate.
  - reflexivity.
  - reflexivity.
  - reflexivity.
Defined.

(** X9. A pass touches the difference only, whatever fails: for every
    environment and every store, [syncCache] ends normally; it fetches and
    puts only keys that are desired and were not cached, deletes only keys
    that were cached and are not desired, and every cached key that is
    still desired keeps its record. *)
Theorem sync_touches_difference_only env images w :
  let out := syncCache env images w in
  result_of out = Ok tt /\
  (forall u, EvFetch u ∈ trace_of out -> u ∈ desired images /\ u ∉ cached w) /\
  (forall u b, EvPut u b ∈ trace_of out -> u ∈ desired images /\ u ∉ cached w) /\
  (forall u, EvDelete u ∈ trace_of out -> u ∈ cached w /\ u ∉ desired images) /\
  (forall u, u ∈ cached w -> u ∈ desired images ->
     IDB.get u (records (world_of out)) = IDB.get u (records w)).
Proof.
  intros out. subst out.
  assert (forall t : list Event,
            (forall ev, ev ∈ t -> ev = EvOpen \/ ev = EvGetAll \/ exists m, ev = EvError m) ->
            (forall u, EvFetch u ∈ t -> u ∈ desired images /\ u ∉ cached w) /\
            (forall u b, EvPut u b ∈ t -> u ∈ desired images /\ u ∉ cached w) /\
            (forall u, EvDelete u ∈ t -> u ∈ cached w /\ u ∉ desired images)) as Hquiet.
  { intros t Ht. repeat split; intros; exfalso;
      match goal with H : _ ∈ t |- _ => apply Ht in H as [?|[?|[m ?]]]; done end. }
  destruct (db w) eqn:Hdb; [|destruct (env_open env) eqn:Hopen].
  3:{ rewrite syncCache_unavailable by done.
      unfold result_of, world_of, trace_of. simpl. split; [done|].
      match goal with |- (forall u, EvFetch u ∈ ?t -> _) /\ _ =>
        destruct (Hquiet t) as (H1 & H2 & H3) end; [|done].
      intros ev. rewrite !elem_of_cons, elem_of_nil. intuition eauto. }
  all: assert (available env w) as Hav by (unfold available; auto).
  all: destruct (env_getAll env) eqn:Hall;
    [rewrite syncCache_run by done | rewrite syncCache_getAll_fails by done].
  all: unfold result_of, world_of, trace_of; simpl; rewrite ?Hdb; (split; [done|]).
  1,3: split; [intros u; by rewrite sync_trace_fetch|];
       split; [intros u b; rewrite sync_trace_put; tauto|];
       split; [intros u; by rewrite sync_trace_delete|];
       intros u Hc Hd; rewrite get_sync_records; by rewrite !decide_False by tauto.
  all: match goal with |- (forall u, EvFetch u ∈ ?t -> _) /\ _ =>
         destruct (Hquiet t) as (H1 & H2 & H3) end; [|done].
  all: intros ev; simpl; rewrite !elem_of_cons, elem_of_nil; intuition eauto.
Qed.

Lemma sync_touches_difference_only_witness :
  IDB.get "B" (records (world_of (syncCache env_A_404 sample_manifest sample_world)))
  = IDB.get "B" (records sample_world).
Proof.
  refine (proj2 (proj2 (proj2 (proj2
    (sync_touches_difference_only env_A_404 sample_manifest sample_world))))
    "B" _ _).
  - apply elem_of_cons. by left.
  - apply elem_of_cons. right. apply elem_of_cons. by left.
Defined.

(** ** [useOfflineImage] *)

Lemma arg_run_cleanup h : arg (run_cleanup h) = arg h.
Proof.
  unfold run_cleanup. destruct (cleanup h) as [j|]; [|done].
  destruct (effects h !! j) as [e|]; [|done].
  destruct (eff_source e) as [s|]; [|done]. by destruct (startsWith s "blob:").
Qed.

Lemma mounted_run_cleanup h : mounted (run_cleanup h) = mounted h.
Proof.
  unfold run_cleanup. destruct (cleanup h) as [j|]; [|done].
  destruct (effects h !! j) as [e|]; [|done].
  destruct (eff_source e) as [s|]; [|done]. by destruct (startsWith s "blob:").
Qed.

Lemma arg_settle i s h : arg (settle i s h) = arg h.
Proof.
  unfold settle. destruct (effects h !! i) as [e|]; [|done].
  destruct (settled e); [done|]. destruct s as [[b|]|]; by destruct (isMounted e).
Qed.

Lemma mounted_settle i s h : mounted (settle i s h) = mounted h.
Proof.
  unfold settle. destruct (effects h !! i) as [e|]; [|done].
  destruct (settled e); [done|]. destruct s as [[b|]|]; by destruct (isMounted e).
Qed.

(** After the cleanup no run is mounted. *)
Lemma run_cleanup_all_superseded h :
  one_run_in_force h ->
  forall k e, effects (run_cleanup h) !! k = Some e -> isMounted e = false.
Proof.
  intros [Ha Hb] k e. rewrite effects_run_cleanup.
  destruct (cleanup h) as [j|] eqn:Hc.
  - destruct (Hb j eq_refl) as (_ & e0 & Hj & _). rewrite Hj.
    intros [(-> & <- & _)|(Hne & Hk)]%list_lookup_insert_Some; [done|].
    destruct (isMounted e) eqn:Hm; [|done].
    apply Ha in Hk; [|done]. congruence.
  - intros Hk. destruct (isMounted e) eqn:Hm; [|done].
    apply Ha in Hk; [|done]. congruence.
Qed.

Lemma one_run_in_force_step h ev :
  one_run_in_force h -> one_run_in_force (step h ev).
Proof.
  intros Hinv. destruct ev as [a|i s|]; simpl.
  - unfold render. destruct (mounted h) eqn:Hm; [|done]. case_decide; [done|].
    pose proof (run_cleanup_all_superseded h Hinv) as Hall.
    unfold run_effect. simpl. destruct a as [u|]; simpl.
    + split; simpl.
      * intros j e [Hj|(Hlen & Hj)]%lookup_app_Some Hmnt.
        -- apply Hall in Hj. congruence.
        -- apply list_lookup_singleton_Some in Hj as [Hj _].
           f_equal. lia.
      * intros i [= <-]. rewrite mounted_run_cleanup. split; [done|].
        eexists. split; [rewrite lookup_app_r by done; by rewrite Nat.sub_diag | done].
    + split; simpl.
      * intros j e Hj Hmnt. apply Hall in Hj. congruence.
      * intros i. by rewrite cleanup_run_cleanup.
  - destruct Hinv as [Ha Hb]. split.
    + intros j e. rewrite cleanup_settle, effects_settle.
      destruct (effects h !! i) as [e0|] eqn:Hi; [|apply Ha].
      destruct (settled e0); [apply Ha|].
      intros [(-> & <- & _)|(Hne & Hj)]%list_lookup_insert_Some; simpl.
      * by apply Ha.
      * by apply Ha.
    + intros j. rewrite cleanup_settle, mounted_settle, arg_settle, effects_settle.
      intros Hc. destruct (Hb j Hc) as (Hm & e & Hj & Hmnt & Harg).
      split; [done|].
      destruct (effects h !! i) as [e0|] eqn:Hi; [|eauto].
      destruct (settled e0); [eauto|].
      destruct (decide (i = j)) as [->|Hne].
      * eexists. split; [apply list_lookup_insert_eq; by eapply lookup_lt_Some|].
        simpl. split; congruence.
      * exists e. by rewrite list_lookup_insert_ne.
  - unfold unmount. destruct (mounted h) eqn:Hm; [|done].
    pose proof (run_cleanup_all_superseded h Hinv) as Hall.
    split; simpl.
    + intros j e Hj Hmnt. apply Hall in Hj. congruence.
    + intros i. by rewrite cleanup_run_cleanup.
Qed.

Lemma one_run_in_force_run a evs :
  one_run_in_force (run (useOfflineImage a) evs).
Proof.
  assert (one_run_in_force (useOfflineImage a)) as H0.
  { unfold useOfflineImage, run_effect. simpl. destruct a as [u|]; split; simpl.
    - intros j e Hj _. apply list_lookup_singleton_Some in Hj as [-> _]. done.
    - intros i [= <-]. split; [done|]. eexists. by split.
    - intros j e Hj. by rewrite lookup_nil in Hj.
    - done. }
  revert H0. generalize (useOfflineImage a). clear a.
  induction evs as [|ev t IH]; intros h Hinv; simpl; [done|].
  by apply IH, one_run_in_force_step.
Qed.

(** X10. One run at a time: in every state that a hook instance
    reaches, at most one run of the effect still has [isMounted] set, and
    such a run is the lookup for the argument of the last render, of a
    component that is mounted. *)
Theorem at_most_one_run_mounted a evs :
  let h := run (useOfflineImage a) evs in
  forall j ej, effects h !! j = Some ej -> isMounted ej = true ->
    (mounted h = true /\ arg h = Some (eff_imageUrl ej)) /\
    (forall k ek, effects h !! k = Some ek -> isMounted ek = true -> k = j).
Proof.
  intros h j ej Hj Hmj.
  destruct (one_run_in_force_run a evs) as [Ha Hb]. fold h in Ha, Hb.
  pose proof (Ha j ej Hj Hmj) as Hc.
  destruct (Hb j Hc) as (Hm & e & He & _ & Harg). split.
  - split; [done|]. congruence.
  - intros k ek Hk Hmk. apply Ha in Hk; [|done]. congruence.
Qed.

Lemma at_most_one_run_mounted_witness :
  arg (run (useOfflineImage (Some "A")) [Render (Some "C")]) = Some "C".
Proof.
  refine (proj2 (proj1 (at_most_one_run_mounted (Some "A") [Render (Some "C")] 1
                          (mkEffect "C" (Some "A") true false) _ _)));
    reflexivity.
Defined.

(** X11. Only the lookup for the current argument changes the output:
    in every state that a hook instance reaches, a settlement that changes
    the output is the settlement of the run in force, whose URL is the
    argument of the last render. *)
Theorem output_changes_for_current_argument a evs i s :
  let h := run (useOfflineImage a) evs in
  source (settle i s h) <> source h ->
  cleanup h = Some i /\
  exists e, effects h !! i = Some e /\ arg h = Some (eff_imageUrl e).
Proof.
  intros h Hchg.
  destruct (one_run_in_force_run a evs) as [Ha Hb]. fold h in Ha, Hb.
  unfold settle in Hchg.
  destruct (effects h !! i) as [e|] eqn:Hi; [|done].
  destruct (settled e); [done|].
  destruct s as [cachedBlob|reason]; [|done].
  destruct (isMounted e) eqn:Hm; [|done].
  pose proof (Ha i e Hi Hm) as Hc. split; [done|].
  destruct (Hb i Hc) as (_ & e' & Hi' & _ & Harg).
  exists e. split; [done|]. congruence.
Qed.

Lemma output_changes_for_current_argument_witness :
  cleanup (run (useOfflineImage (Some "A")) [Render (Some "C")]) = Some 1.
Proof.
  refine (proj1 (output_changes_for_current_argument (Some "A") [Render (Some "C")] 1
                   (Resolved None) _)).
  vm_compute. discriminate.
Defined.

(** X12. Cache hit: when the store works and holds a record for [u], the
    lookup in progress for [u] resolves with the stored blob and commits a
    fresh object URL as the output, which becomes live; nothing is
    revoked. *)
Theorem object_url_when_cached env w h i u r :
  available env w ->
  env_get env u = true ->
  IDB.get u (records w) = Some r ->
  resolving h i u ->
  lookup env w u = Resolved (Some (blob r)) /\
  let h' := settle i (lookup env w u) h in
  source h' = Some ("blob:" +:+ pretty (created h)) /\
  objectURLs h' = ("blob:" +:+ pretty (created h)) :: objectURLs h /\
  created h' = S (created h) /\
  revocations h' = revocations h.
Proof.
  intros Hav Hget Hr (_ & e & Hi & Hu & Hm & Hs).
  assert (lookup env w u = Resolved (Some (blob r))) as Hl.
  { unfold lookup. rewrite getImage_available by done. unfold result_of. simpl.
    by rewrite Hr. }
  split; [done|]. rewrite Hl. unfold settle. rewrite Hi, Hs, Hm. done.
Qed.

Lemma object_url_when_cached_witness :
  source (settle 0 (lookup env_ok synced_world "A") (useOfflineImage (Some "A")))
  = Some "blob:0".
Proof.
  refine (proj1 (proj2 (object_url_when_cached env_ok synced_world
            (useOfflineImage (Some "A")) 0 "A" (mkItem "A" payload_2) _ _ _ _))).
  - by left.
  - reflexivity.
  - reflexivity.
  - split; [reflexivity|]. eexists. repeat split; reflexivity.
Defined.

(** X13. No URL, no lookup: a hook mounted with the argument "none" and
    rendered with "none" only starts no run of the effect, creates no
    object URL, and returns "none" throughout, whatever settles and also
    after the unmount. *)
Theorem no_lookup_without_url evs :
  renders_none evs ->
  let h := run (useOfflineImage None) evs in
  source h = None /\ effects h = [] /\ objectURLs h = [] /\ revocations h = [].
Proof.
  intros Hevs h. subst h.
  assert (forall h0 : Hook,
            arg h0 = None -> cleanup h0 = None -> effects h0 = [] ->
            run h0 evs = h0 \/
            run h0 evs = mkHook (arg h0) (source h0) (effects h0) (cleanup h0) false
                                (objectURLs h0) (created h0) (revocations h0)) as Hrun.
  { induction Hevs as [|ev t Hev _ IH]; intros h0 Harg Hc He; simpl; [by left|].
    assert (step h0 ev = h0 \/
            step h0 ev = mkHook (arg h0) (source h0) (effects h0) (cleanup h0) false
                               (objectURLs h0) (created h0) (revocations h0)) as [->| ->].
    { destruct ev as [[u|]|i s|]; simpl; [done| | |].
      - left. unfold render. destruct (mounted h0); [|done].
        by rewrite decide_True.
      - left. unfold settle. by rewrite He.
      - unfold unmount, run_cleanup. destruct h0 as [? ? ? ? [|] ? ? ?]; simpl in *;
          subst; [right|left]; reflexivity. }
    - by apply IH.
    - right.
      destruct (IH (mkHook (arg h0) (source h0) (effects h0) (cleanup h0) false
                           (objectURLs h0) (created h0) (revocations h0)) Harg Hc He)
        as [Hr|Hr]; by rewrite Hr. }
  destruct (Hrun (useOfflineImage None)) as [->| ->]; done.
Qed.

Lemma no_lookup_without_url_witness :
  source (run (useOfflineImage None)
              [Render None; Settle 0 (Resolved (Some payload_1)); Unmount]) = None.
Proof.
  refine (proj1 (no_lookup_without_url
                   [Render None; Settle 0 (Resolved (Some payload_1)); Unmount] _)).
  repeat constructor.
Defined.

Lemma unmounted_stays h ev :
  mounted h = false ->
  (forall j e, effects h !! j = Some e -> isMounted e = false) ->
  observable (step h ev) = observable h /\
  mounted (step h ev) = false /\
  (forall j e, effects (step h ev) !! j = Some e -> isMounted e = false).
Proof.
  intros Hm Hall. destruct ev as [a|i s|]; simpl.
  - unfold render. by rewrite Hm.
  - split; [|split].
    + destruct (effects h !! i) as [e|] eqn:Hi.
      * apply settle_superseded. exists e. split; [done|]. by eapply Hall.
      * unfold settle. by rewrite Hi.
    + by rewrite mounted_settle.
    + intros j e. rewrite effects_settle.
      destruct (effects h !! i) as [e0|] eqn:Hi; [|apply Hall].
      destruct (settled e0); [apply Hall|].
      intros [(-> & <- & _)|(Hne & Hj)]%list_lookup_insert_Some; simpl.
      * by eapply Hall.
      * by eapply Hall.
  - unfold unmount. by rewrite Hm.
Qed.

(** X14. Nothing after the unmount: once a hook instance is unmounted,
    no event changes what is observed of it: no late settlement sets the
    state, creates an object URL or revokes one, and no render starts a
    lookup. *)
Theorem nothing_after_unmount a evs0 evs :
  let h := unmount (run (useOfflineImage a) evs0) in
  observable (run h evs) = observable h /\
  length (effects (run h evs)) = length (effects h).
Proof.
  intros h.
  assert (mounted h = false /\
          forall j e, effects h !! j = Some e -> isMounted e = false) as [Hm Hall].
  { pose proof (one_run_in_force_step _ Unmount (one_run_in_force_run a evs0)) as [Ha Hb].
    simpl in Ha, Hb. fold h in Ha, Hb.
    assert (mounted h = false) as Hm.
    { subst h. unfold unmount.
      destruct (mounted (run (useOfflineImage a) evs0)) eqn:Hm'; [reflexivity|exact Hm']. }
    split; [done|]. intros j e Hj. destruct (isMounted e) eqn:Hmnt; [|done].
    apply Ha in Hj; [|done]. apply Hb in Hj as [Hj _]. congruence. }
  clearbody h. revert h Hm Hall.
  induction evs as [|ev t IH]; intros h Hm Hall; simpl; [done|].
  destruct (unmounted_stays h ev Hm Hall) as (Hobs & Hm' & Hall').
  destruct (IH (step h ev) Hm' Hall') as [-> ->]. split; [done|].
  destruct ev as [b|i s|]; simpl.
  - unfold render. by rewrite Hm.
  - rewrite effects_settle. destruct (effects h !! i) as [e0|]; [|done].
    destruct (settled e0); [done|]. by rewrite length_insert.
  - unfold unmount. by rewrite Hm.
Qed.

(** X15. Revoked while displayed: when the argument of a mounted hook
    changes while the output is still the object URL that the run in
    force was started with, the cleanup of that run revokes this URL,
    and the hook goes on returning the revoked URL. *)
Theorem output_revoked_on_change h i e s a :
  mounted h = true ->
  cleanup h = Some i ->
  effects h !! i = Some e ->
  eff_source e = Some s ->
  startsWith s "blob:" = true ->
  source h = Some s ->
  a <> arg h ->
  let h' := render a h in
  source h' = Some s /\ (s ∉ objectURLs h') /\ s ∈ revocations h'.
Proof.
  intros Hm Hc Hi Hs Hblob Hsrc Hne h'. subst h'.
  unfold render. rewrite Hm, decide_False by done.
  unfold run_cleanup. rewrite Hc, Hi, Hs, Hblob.
  unfold run_effect. simpl.
  assert (s ∉ filter (fun v => v <> s) (objectURLs h)) as Hnot.
  { intros Hin. by apply list_elem_of_filter in Hin as [Hin _]. }
  assert (s ∈ s :: revocations h) as Hrev by (apply elem_of_cons; by left).
  destruct a; simpl; done.
Qed.

Lemma output_revoked_on_change_witness :
  let h := run (useOfflineImage (Some "A"))
               [Settle 0 (Resolved (Some payload_1)); Render (Some "B")] in
  source (render (Some "C") h) = Some "blob:0" /\
  ("blob:0" ∉ objectURLs (render (Some "C") h)) /\
  "blob:0" ∈ revocations (render (Some "C") h).
Proof.
  apply (output_revoked_on_change
           (run (useOfflineImage (Some "A"))
                [Settle 0 (Resolved (Some payload_1)); Render (Some "B")])
           1 (mkEffect "B" (Some "blob:0") true false) "blob:0" (Some "C"));
    try reflexivity.
  discriminate.
Defined.

(** ** The slideshow of [MemoryGallery] *)

Ltac gallery_unfold :=
  unfold gallery_step, startGallery, showFrozenGallery, handleFrozenImageClick,
    returnToLanding, handleSwipe, handleKeyDown, toggleLock, start_effect,
    showNextImage, fadeIn_complete, end_first_visit, set_mode, set_current,
    set_animation in *.

Ltac keeps_upcoming :=
  first [ by auto
        | by (split; [|split]; try done; right; right; eexists; split; reflexivity) ].

Lemma head_tail {A} (l : list A) : option_list (head l) ++ tail l = l.
Proof. by destruct l. Qed.

Lemma NoDup_fmap_filter {A B} (f : A -> B) (P : A -> Prop)
    `{!forall x, Decision (P x)} (l : list A) :
  NoDup (f <$> l) -> NoDup (f <$> filter P l).
Proof.
  induction l as [|x t IH]; simpl; [done|].
  intros [Hx Ht]%NoDup_cons. rewrite filter_cons.
  case_decide; [|by apply IH]. simpl. apply NoDup_cons. split; [|by apply IH].
  intros (y & Hy & Hin)%list_elem_of_fmap. apply Hx.
  apply list_elem_of_fmap. exists y. split; [done|].
  by apply list_elem_of_filter in Hin as [_ Hin].
Qed.

(** Every handler but the callback of the fade-out leaves [nextImage] and
    the queue alone. *)
Lemma step_keeps_upcoming allImages g ev :
  (forall order, ev <> FadeOutComplete order) ->
  nextImage (gallery_step allImages g ev) = nextImage g /\
  unseenImageQueue (gallery_step allImages g ev) = unseenImageQueue g /\
  (animation (gallery_step allImages g ev) = animation g \/
   animation (gallery_step allImages g ev) = Idle \/
   exists n, nextImage g = Some n /\
     animation (gallery_step allImages g ev) = FadingOut n (unseenImageQueue g)).
Proof.
  intros Hev. destruct g as [m c n q lk fv an hv].
  destruct ev as [| |tile| | |key| | |order|]; try (by destruct (Hev order));
    gallery_unfold; simpl.
  - auto.
  - auto.
  - destruct (allImages !! tile); simpl; auto.
  - auto.
  - destruct lk, fv, an, n; simpl; keeps_upcoming.
  - destruct m, lk, fv, an, n, c; simpl; try case_decide; simpl; keeps_upcoming.
  - destruct c, fv; simpl; auto.
  - destruct m, c, lk, an, n; simpl; keeps_upcoming.
  - destruct an; simpl; auto.
Qed.

Lemma filter_other_nonempty (allImages : list ImagePlaceholder) n :
  2 <= length allImages -> NoDup (id <$> allImages) ->
  filter (fun img => id img <> id n) allImages <> [].
Proof.
  destruct allImages as [|a [|b t]]; simpl; try lia. intros _ Hnd Hnil.
  apply NoDup_cons in Hnd as [Ha _]. rewrite not_elem_of_cons in Ha.
  destruct Ha as [Hab _].
  rewrite !filter_cons in Hnil.
  destruct (decide (id a <> id n)) as [|Ha]; [done|].
  destruct (decide (id b <> id n)) as [|Hb]; [done|].
  apply dec_stable in Ha. apply dec_stable in Hb. congruence.
Qed.

Lemma queue_ok_step allImages g ev :
  NoDup (id <$> allImages) ->
  match ev with FadeOutComplete order => rearranges order | _ => True end ->
  queue_ok allImages g ->
  queue_ok allImages (gallery_step allImages g ev) /\
  (2 <= length allImages -> is_Some (nextImage g) ->
   is_Some (nextImage (gallery_step allImages g ev))).
Proof.
  intros Hnd Hev Hok. pose proof Hok as (Hq1 & Hq2 & Hq3 & Hq4).
  assert ((exists order, ev = FadeOutComplete order) \/
          ~ (exists order, ev = FadeOutComplete order)) as [[order ->]|Hne]
    by (destruct ev; first [by left; eexists | by right; intros [? ?]]).
  - simpl. unfold fadeOut_complete.
    destruct (animation g) as [|n q|] eqn:Han; [by split| |by split].
    destruct (Hq4 n q eq_refl) as [Hn Hq].
    assert (upcoming g = n :: q) as Hup by (unfold upcoming; by rewrite Hn, Hq).
    rewrite Hup in Hq1, Hq2.
    set (queue := if decide (length q = 0) then _ else q).
    assert (NoDup (id <$> queue) /\ (forall x, x ∈ queue -> x ∈ allImages) /\
            (2 <= length allImages -> queue <> [])) as (Hn1 & Hn2 & Hn3).
    { subst queue. case_decide as Hlen.
      - split; [|split].
        + rewrite (Hev _). by apply NoDup_fmap_filter.
        + intros x. rewrite (Hev _). by intros [_ ?]%list_elem_of_filter.
        + intros Hlen2 Hnil. apply (filter_other_nonempty allImages n Hlen2 Hnd).
          apply Permutation_nil_r. by rewrite <- Hnil, (Hev _).
      - split; [|split].
        + simpl in Hq1. by apply NoDup_cons in Hq1 as [_ ?].
        + intros x Hx. apply Hq2, elem_of_cons. by right.
        + intros _ ->. by apply Hlen. }
    split.
    + unfold queue_ok, upcoming. simpl. rewrite head_tail.
      split; [done|]. split; [done|]. split; [|done].
      by destruct queue.
    + intros Hlen2 _. simpl. specialize (Hn3 Hlen2). destruct queue; [done|]. by eexists.
  - assert (forall order, ev <> FadeOutComplete order) as Hne'
      by (intros order ->; apply Hne; eauto).
    destruct (step_keeps_upcoming allImages g ev Hne') as (Hn & Hq & Han).
    split; [|by rewrite Hn].
    unfold queue_ok, upcoming. rewrite Hn, Hq.
    split; [done|]. split; [done|]. split; [done|].
    intros n q Hfo. destruct Han as [Han|[Han|(n' & Hn' & Han)]].
    + apply Hq4. congruence.
    + congruence.
    + rewrite Han in Hfo. by simplify_eq.
Qed.

Lemma queue_ok_run allImages visited evs :
  NoDup (id <$> allImages) -> fair evs ->
  let g := gallery_run allImages (MemoryGallery allImages visited) evs in
  queue_ok allImages g /\ (2 <= length allImages -> is_Some (nextImage g)).
Proof.
  intros Hnd Hfair.
  assert (queue_ok allImages (MemoryGallery allImages visited) /\
          (2 <= length allImages ->
           is_Some (nextImage (MemoryGallery allImages visited)))) as H0.
  { split.
    - unfold queue_ok, upcoming. simpl. rewrite head_tail.
      split; [done|]. split; [done|]. split; [|done]. by destruct allImages.
    - simpl. destruct allImages; simpl; [lia|eauto]. }
  revert H0. generalize (MemoryGallery allImages visited).
  induction Hfair as [|ev t Hev _ IH]; intros g [Hok Hsome]; simpl; [done|].
  destruct (queue_ok_step allImages g ev Hnd Hev Hok) as [Hok' Hsome'].
  apply IH. split; [done|]. intros Hlen. by apply Hsome', Hsome.
Qed.

(** X16. Nothing waits twice: when the images of the gallery have
    distinct ids, then in every state that the gallery reaches, the images
    that wait to be shown ([nextImage] and the queue behind it) have
    distinct ids and are images of the gallery. *)
Theorem no_image_queued_twice allImages visited evs :
  NoDup (id <$> allImages) ->
  fair evs ->
  let g := gallery_run allImages (MemoryGallery allImages visited) evs in
  NoDup (id <$> upcoming g) /\
  (forall x, x ∈ upcoming g -> x ∈ allImages).
Proof.
  intros Hnd Hfair g.
  destruct (queue_ok_run allImages visited evs Hnd Hfair) as [(H1 & H2 & _) _].
  by split.
Qed.

Lemma no_image_queued_twice_witness :
  NoDup (id <$> upcoming
    (gallery_run sample_manifest (MemoryGallery sample_manifest false)
       [StartGallery; StartEffect; FadeOutComplete reverse; FadeInComplete])).
Proof.
  refine (proj1 (no_image_queued_twice sample_manifest false
    [StartGallery; StartEffect; FadeOutComplete reverse; FadeInComplete] _ _)).
  - apply (bool_decide_unpack _). by vm_compute.
  - repeat constructor. intros l. apply reverse_Permutation.
Defined.

(** X17. The slideshow does not run dry: when the gallery has at least
    two images, with distinct ids, [nextImage] is defined in every state
    that the gallery reaches. *)
Theorem next_image_always_defined allImages visited evs :
  2 <= length allImages ->
  NoDup (id <$> allImages) ->
  fair evs ->
  is_Some (nextImage (gallery_run allImages (MemoryGallery allImages visited) evs)).
Proof.
  intros Hlen Hnd Hfair.
  destruct (queue_ok_run allImages visited evs Hnd Hfair) as [_ Hsome]. by apply Hsome.
Qed.

Lemma next_image_always_defined_witness :
  is_Some (nextImage
    (gallery_run sample_manifest (MemoryGallery sample_manifest false)
       ([StartGallery; StartEffect; FadeOutComplete reverse; FadeInComplete]
          ++ transition reverse ++ transition reverse ++ transition reverse))).
Proof.
  apply next_image_always_defined.
  - simpl. lia.
  - apply (bool_decide_unpack _). by vm_compute.
  - repeat constructor; intros l; apply reverse_Permutation.
Defined.



Lemma gallery_run_cons allImages g ev evs :
  gallery_run allImages g (ev :: evs) =
  gallery_run allImages (gallery_step allImages g ev) evs.
Proof. done. Qed.

Lemma fading_out_run allImages orders : forall g order a l,
  animation g = FadingOut a l ->
  isLocked g = false ->
  length orders <= length l ->
  currentImage
    (gallery_run allImages g
       ([FadeOutComplete order; FadeInComplete] ++ concat (map transition orders)))
  = (a :: l) !! length orders.
Proof.
  induction orders as [|order' rest IH]; intros g order a l Han Hlk Hlen.
  - simpl. unfold fadeOut_complete. rewrite Han. simpl.
    unfold fadeIn_complete. simpl. done.
  - destruct l as [|b l']; simpl in Hlen; [lia|].
    change ([FadeOutComplete order; FadeInComplete]
              ++ concat (map transition (order' :: rest)))
      with (FadeOutComplete order :: FadeInComplete :: Swipe ::
              ([FadeOutComplete order'; FadeInComplete]
                 ++ concat (map transition rest))).
    rewrite 3!gallery_run_cons.
    etrans; [apply (IH _ order' b l')|done].
    + destruct g as [m c n q lk fv an hv]. simpl in *. subst.
      unfold fadeOut_complete, fadeIn_complete, handleSwipe, showNextImage,
        end_first_visit. simpl. by destruct fv.
    + destruct g as [m c n q lk fv an hv]. simpl in *. subst.
      unfold fadeOut_complete, fadeIn_complete, handleSwipe, showNextImage,
        end_first_visit. simpl. by destruct fv.
    + lia.
Qed.

(** X19. The first round follows the list: from the landing page, the
    start of the slideshow shows the first image of the list that the
    gallery was given, and each later transition the image after it, until
    every image has been shown once, whatever orders [sort] returns. *)
Theorem first_round_in_order allImages visited order orders :
  length orders < length allImages ->
  currentImage
    (gallery_run allImages (MemoryGallery allImages visited)
       ([StartGallery; StartEffect; FadeOutComplete order; FadeInComplete]
          ++ concat (map transition orders)))
  = allImages !! length orders.
Proof.
  intros Hlen. destruct allImages as [|a l]; simpl in Hlen; [lia|].
  change ([StartGallery; StartEffect; FadeOutComplete order; FadeInComplete]
            ++ concat (map transition orders))
    with (StartGallery :: StartEffect ::
            ([FadeOutComplete order; FadeInComplete] ++ concat (map transition orders))).
  rewrite 2!gallery_run_cons.
  apply (fading_out_run (a :: l) orders _ order a l); [done|done|lia].
Qed.

Lemma first_round_in_order_witness :
  currentImage
    (gallery_run sample_manifest (MemoryGallery sample_manifest true)
       ([StartGallery; StartEffect; FadeOutComplete reverse; FadeInComplete]
          ++ concat (map transition [reverse; reverse])))
  = Some (image_of "C").
Proof.
  apply (first_round_in_order sample_manifest true reverse [reverse; reverse]).
  simpl. lia.
Defined.

(** X20. Zoomed means still: while the photo is locked, swipes, arrow
    buttons, keys other than Escape and the effect that starts the
    slideshow change nothing at all; in the swipe view, Escape unlocks the
    photo that is shown. *)
Theorem locked_ignores_navigation allImages g evs :
  isLocked g = true ->
  (navigation evs -> gallery_run allImages g evs = g) /\
  (galleryMode g = swipe -> is_Some (currentImage g) ->
   isLocked (gallery_step allImages g (KeyDown "Escape")) = false).
Proof.
  intros Hlk. split.
  - intros Hnav. induction Hnav as [|ev t Hev _ IH]; simpl; [done|].
    assert (gallery_step allImages g ev = g) as ->; [|done].
    destruct g as [m c n q lk fv an hv]. simpl in Hlk. subst lk.
    destruct ev as [| |tile| | |key| | |order|]; try done; gallery_unfold; simpl.
    + destruct m; try done. by rewrite decide_False.
    + by destruct m, c, an, n.
  - intros Hm [c Hc]. destruct g as [m c' n q lk fv an hv]. simpl in *. subst.
    unfold handleKeyDown, toggleLock, end_first_visit. simpl. by destruct fv.
Qed.

Lemma locked_ignores_navigation_witness :
  let g := mkGallery swipe (Some (image_of "A")) (Some (image_of "B")) [image_of "C"]
                     true false Idle true in
  gallery_run sample_manifest g [Swipe; KeyDown "ArrowRight"; StartEffect; Swipe] = g.
Proof.
  refine (proj1 (locked_ignores_navigation sample_manifest _
                   [Swipe; KeyDown "ArrowRight"; StartEffect; Swipe] _) _).
  - reflexivity.
  - repeat constructor. discriminate.
Defined.

Lemma dead_end_step allImages g ev :
  nextImage g = None -> unseenImageQueue g = [] -> animation g = Idle ->
  nextImage (gallery_step allImages g ev) = None /\
  unseenImageQueue (gallery_step allImages g ev) = [] /\
  animation (gallery_step allImages g ev) = Idle.
Proof.
  intros Hn Hq Ha. destruct g as [m c n q lk fv an hv]. simpl in *. subst.
  destruct ev as [| |tile| | |key| | |order|]; gallery_unfold; simpl; try done.
  - by destruct (allImages !! tile).
  - by destruct lk, fv.
  - destruct m, lk, fv, c; simpl; try case_decide; done.
  - by destruct c, fv.
  - by destruct m, c, lk.
Qed.

(** X21. A gallery of fewer than two images stops: with one image, the
    start of the slideshow shows it and leaves [nextImage] undefined; with
    none, [nextImage] is undefined from the start; from then on no event
    defines [nextImage] or starts a fade-out again. *)
Theorem slideshow_needs_two_images allImages visited order evs :
  length allImages <= 1 ->
  rearranges order ->
  let g := gallery_run allImages (MemoryGallery allImages visited)
             [StartGallery; StartEffect; FadeOutComplete order; FadeInComplete] in
  currentImage g = head allImages /\
  nextImage (gallery_run allImages g evs) = None /\
  animation (gallery_run allImages g evs) = Idle.
Proof.
  intros Hlen Hord g.
  assert (currentImage g = head allImages /\ nextImage g = None /\
          unseenImageQueue g = [] /\ animation g = Idle) as (Hc & Hn & Hq & Ha).
  { subst g. destruct allImages as [|a [|b t]]; simpl in Hlen; [done| |lia].
    simpl. unfold fadeOut_complete. simpl.
    rewrite filter_cons, decide_False by (intros H; by apply H).
    rewrite filter_nil.
    assert (order [] = []) as -> by (apply Permutation_nil_r; by rewrite (Hord [])).
    done. }
  split; [done|]. clearbody g. clear Hc.
  revert g Hn Hq Ha. induction evs as [|ev t IH]; intros g Hn Hq Ha; simpl; [done|].
  destruct (dead_end_step allImages g ev Hn Hq Ha) as (Hn' & Hq' & Ha').
  by apply IH.
Qed.

Lemma slideshow_needs_two_images_witness :
  nextImage
    (gallery_run [image_of "A"]
       (gallery_run [image_of "A"] (MemoryGallery [image_of "A"] false)
          [StartGallery; StartEffect; FadeOutComplete reverse; FadeInComplete])
       [Swipe; KeyDown "ArrowRight"; FadeOutComplete reverse]) = None.
Proof.
  refine (proj1 (proj2 (slideshow_needs_two_images [image_of "A"] false reverse
                          [Swipe; KeyDown "ArrowRight"; FadeOutComplete reverse] _ _))).
  - simpl. lia.
  - intros l. apply reverse_Permutation.
Defined.

(** ** [PortraitImages] and [LandscapeImages] *)

(** X22. Two lists, one manifest: the portrait images and the landscape
    images together are the images of the manifest, each once; every
    image of the first list is a portrait image and every image of the
    second a landscape image. *)
Theorem orientation_lists_partition AllImages :
  PortraitImages AllImages ++ LandscapeImages AllImages ≡ₚ AllImages /\
  Forall (fun img => orientation img = portrait) (PortraitImages AllImages) /\
  Forall (fun img => orientation img = landscape) (LandscapeImages AllImages).
Proof.
  unfold PortraitImages, LandscapeImages. split; [|split].
  - induction AllImages as [|img t IH]; simpl; [done|].
    rewrite !filter_cons. destruct (orientation img); repeat case_decide; try done; simpl.
    + by rewrite IH.
    + by rewrite <- Permutation_middle, IH.
  - apply Forall_forall. by intros img [? _]%list_elem_of_filter.
  - apply Forall_forall. by intros img [? _]%list_elem_of_filter.
Qed.

(** ** The service worker *)

Lemma cache_match_app u c1 c2 :
  SW.cache_match u (c1 ++ c2) =
  match SW.cache_match u c1 with
  | Some r => Some r
  | None => SW.cache_match u c2
  end.
Proof.
  induction c1 as [|[k r] t IH]; simpl; [done|]. by case_decide.
Qed.

Lemma cache_match_filter_eq u c :
  SW.cache_match u (filter (fun e : string * SW.Response => e.1 <> u) c) = None.
Proof.
  induction c as [|[k r] t IH]; [done|].
  rewrite filter_cons. simpl. case_decide; [|done]. simpl. by rewrite decide_False.
Qed.

Lemma cache_match_filter_ne u u' c :
  u <> u' ->
  SW.cache_match u (filter (fun e : string * SW.Response => e.1 <> u') c)
  = SW.cache_match u c.
Proof.
  intros Hne. induction c as [|[k r] t IH]; [done|].
  rewrite filter_cons. simpl. case_decide as Hk; simpl.
  - by case_decide.
  - rewrite decide_False by congruence. done.
Qed.

Lemma cache_match_put_eq u r c : SW.cache_match u (SW.cache_put u r c) = Some r.
Proof.
  unfold SW.cache_put. rewrite cache_match_app, cache_match_filter_eq. simpl.
  by rewrite decide_True.
Qed.

Lemma cache_match_put_is_Some u u' r c :
  is_Some (SW.cache_match u c) -> is_Some (SW.cache_match u (SW.cache_put u' r c)).
Proof.
  intros Hs. destruct (decide (u = u')) as [->|Hne].
  - rewrite cache_match_put_eq. eauto.
  - unfold SW.cache_put. rewrite cache_match_app, cache_match_filter_ne by done.
    by destruct Hs as [x ->].
Qed.

(** A put into the worker's cache is found again, unless a cache of
    another name answers for the URL. *)
Lemma caches_match_open_and_put name u r cs :
  (forall k c, (k, c) ∈ cs -> k <> name -> SW.cache_match u c = None) ->
  SW.caches_match u (SW.open_and_put name u r true cs) = Some r.
Proof.
  induction cs as [|[k c] t IH]; intros Hother; cbn [SW.open_and_put SW.caches_match].
  - by rewrite cache_match_put_eq.
  - case_decide as Hk; cbn [SW.open_and_put SW.caches_match].
    + by rewrite cache_match_put_eq.
    + rewrite (Hother k c) by (try done; apply elem_of_cons; by left).
      apply IH. intros k' c' Hin. apply Hother, elem_of_cons. by right.
Qed.

Lemma caches_match_open_and_put_is_Some name u u' r ok cs :
  is_Some (SW.caches_match u cs) ->
  is_Some (SW.caches_match u (SW.open_and_put name u' r ok cs)).
Proof.
  induction cs as [|[k c] t IH]; cbn [SW.open_and_put SW.caches_match]; intros Hs.
  - by destruct Hs.
  - case_decide as Hk; cbn [SW.open_and_put SW.caches_match].
    + destruct (SW.cache_match u c) as [x|] eqn:Hc.
      * destruct ok; [|by rewrite Hc].
        destruct (cache_match_put_is_Some u u' r c) as [y ->]; [by rewrite Hc|eauto].
      * destruct ok; [|by rewrite Hc].
        destruct (SW.cache_match u (SW.cache_put u' r c)); eauto.
    + destruct (SW.cache_match u c); [eauto|by apply IH].
Qed.

Lemma Forall_filter_keep {A} (Q P : A -> Prop) `{!forall x, Decision (P x)} (l : list A) :
  Forall Q l -> Forall Q (filter P l).
Proof.
  rewrite !Forall_forall. intros Hall x [_ Hin]%list_elem_of_filter. by apply Hall.
Qed.

Lemma all_ok_open_and_put name u r ok cs :
  SW.status r = 200%Z -> SW.all_ok cs -> SW.all_ok (SW.open_and_put name u r ok cs).
Proof.
  intros Hr. unfold SW.all_ok.
  assert (forall c : list (string * SW.Response),
            Forall (fun e => SW.status e.2 = 200%Z) c ->
            Forall (fun e => SW.status e.2 = 200%Z)
                   (if ok then SW.cache_put u r c else c)) as Hput.
  { intros c Hc. destruct ok; [|done]. unfold SW.cache_put.
    apply Forall_app. split; [by apply Forall_filter_keep|]. by repeat constructor. }
  induction cs as [|[k c] t IH]; simpl; intros Hall.
  - repeat constructor. simpl. apply Hput. constructor.
  - apply Forall_cons in Hall as [Hc Ht]. case_decide.
    + constructor; [|done]. simpl. by apply Hput.
    + constructor; [done|]. by apply IH.
Qed.

Lemma on_fetch_storage root host request cs :
  (SW.on_fetch root host request cs).1.2 = cs \/
  exists r, SW.status r = 200%Z /\
    (SW.on_fetch root host request cs).1.2 =
    SW.open_and_put SW.CACHE_NAME (SW.req_url request) r
                    (SW.put_ok host (SW.req_url request)) cs.
Proof.
  unfold SW.on_fetch. case_decide; [by left|]. case_decide.
  - destruct (SW.net host request) as [r|]; [|by left].
    case_decide as Hs; [by left|]. right. exists r. split; [|done].
    destruct (decide (SW.status r = 200%Z)); [done|]. exfalso. apply Hs. by left.
  - destruct (SW.caches_match _ cs); [by left|].
    destruct (SW.net host request) as [r|]; [|by left].
    case_decide as Hs; [by left|]. destruct (startsWith _ _); [by left|].
    right. by exists r.
Qed.

(** X23. Only complete answers are stored: when every response in the
    cache storage has the status 200, so it is after every sequence of
    fetch and activate events, whatever the network answers. *)
Theorem worker_stores_status_200 root cs evs :
  SW.all_ok cs -> SW.all_ok (SW.run root cs evs).
Proof.
  revert cs. induction evs as [|ev t IH]; intros cs Hok; simpl; [done|].
  apply IH. destruct ev as [host request|]; simpl.
  - destruct (on_fetch_storage root host request cs) as [->|(r & Hr & ->)]; [done|].
    by apply all_ok_open_and_put.
  - unfold SW.on_activate, SW.all_ok. by apply Forall_filter_keep.
Qed.

Lemma worker_stores_status_200_witness :
  SW.all_ok (SW.run "https://memories.example/" []
               [SW.Fetch SW.online (SW.navigation "https://memories.example/");
                SW.Activate;
                SW.Fetch SW.offline (SW.asset "https://memories.example/a.js")]).
Proof. apply worker_stores_status_200. constructor. Defined.

(** X24. A page visited online is served offline: after an activation,
    a navigation that the network answers with a basic response of status
    200 stores the response, and a later navigation to the same URL while
    the network fails is answered with that response. *)
Theorem visited_page_served_offline root cs host host' u r :
  SW.net host (SW.navigation u) = Some r ->
  SW.status r = 200%Z ->
  SW.type r = "basic" ->
  SW.put_ok host u = true ->
  SW.net host' (SW.navigation u) = None ->
  let cs1 := SW.run root cs [SW.Activate; SW.Fetch host (SW.navigation u)] in
  (SW.on_fetch root host (SW.navigation u) (SW.on_activate cs)).1.1 = SW.Responded r /\
  (SW.on_fetch root host' (SW.navigation u) cs1).1.1 = SW.Responded r.
Proof.
  intros Hnet Hs Ht Hput Hoff cs1. subst cs1. simpl.
  unfold SW.on_fetch. simpl. rewrite Hnet, Hoff.
  rewrite decide_False by (intros [?|?]; congruence).
  rewrite Hput. simpl. split; [done|].
  rewrite caches_match_open_and_put; [done|].
  intros k c Hin Hk. unfold SW.on_activate in Hin.
  apply list_elem_of_filter in Hin as [Hin _]. simpl in Hin.
  by apply list_elem_of_singleton in Hin.
Qed.

Lemma visited_page_served_offline_witness :
  (SW.on_fetch "https://memories.example/" SW.offline (SW.navigation "https://memories.example/")
     (SW.run "https://memories.example/" [("old-cache", [])]
        [SW.Activate; SW.Fetch SW.online (SW.navigation "https://memories.example/")])).1.1
  = SW.Responded SW.page.
Proof.
  refine (proj2 (visited_page_served_offline "https://memories.example/"
                   [("old-cache", [])] SW.online SW.offline
                   "https://memories.example/" SW.page _ _ _ _ _)); reflexivity.
Defined.

(** X25. An asset is fetched once: a GET request that is no navigation,
    whose URL no cache answers and is no [chrome-extension:] URL, and that
    the network answers with the status 200, is stored; the same request
    is then answered from the cache, without the network and without a
    change of the cache storage. *)
Theorem asset_fetched_once root cs host host' request r :
  SW.method request = "GET" ->
  SW.mode request <> "navigate" ->
  SW.caches_match (SW.req_url request) cs = None ->
  startsWith (SW.req_url request) "chrome-extension://" = false ->
  SW.net host request = Some r ->
  SW.status r = 200%Z ->
  SW.put_ok host (SW.req_url request) = true ->
  let first := SW.on_fetch root host request cs in
  let second := SW.on_fetch root host' request first.1.2 in
  first.1.1 = SW.Responded r /\ first.2 = [SW.req_url request] /\
  second = (SW.Responded r, first.1.2, []).
Proof.
  intros Hm Hmode Hmiss Hext Hnet Hs Hput first second.
  assert (forall k c, (k, c) ∈ cs ->
                      SW.cache_match (SW.req_url request) c = None) as Hnone.
  { clear -Hmiss. induction cs as [|[k0 c0] t IH]; intros k c Hin.
    - by apply elem_of_nil in Hin.
    - simpl in Hmiss. destruct (SW.cache_match _ c0) eqn:Hc0; [done|].
      apply elem_of_cons in Hin as [[= -> ->]|Hin]; [done|].
      by apply (IH Hmiss k c). }
  assert (first = (SW.Responded r,
                   SW.open_and_put SW.CACHE_NAME (SW.req_url request) r true cs,
                   [SW.req_url request])) as Hfirst.
  { subst first. unfold SW.on_fetch.
    rewrite decide_False by (intros H; by apply H).
    rewrite decide_False by done.
    rewrite Hmiss, Hnet. rewrite decide_False by (intros H; by apply H).
    by rewrite Hext, Hput. }
  subst second. rewrite Hfirst. simpl. split; [done|]. split; [done|].
  unfold SW.on_fetch.
  rewrite decide_False by (intros H; by apply H).
  rewrite decide_False by done.
  rewrite caches_match_open_and_put; [done|]. intros k c Hin _. by apply (Hnone k c).
Qed.

Lemma asset_fetched_once_witness :
  SW.on_fetch "https://memories.example/" SW.offline (SW.asset "https://memories.example/a.js")
    (SW.on_fetch "https://memories.example/" SW.online
       (SW.asset "https://memories.example/a.js") []).1.2
  = (SW.Responded SW.page,
     (SW.on_fetch "https://memories.example/" SW.online
        (SW.asset "https://memories.example/a.js") []).1.2, []).
Proof.
  refine (proj2 (proj2 (asset_fetched_once "https://memories.example/" [] SW.online
                          SW.offline (SW.asset "https://memories.example/a.js") SW.page
                          _ _ _ _ _ _ _))); try reflexivity.
  discriminate.
Defined.

(** X26. The home page is the fallback: once some cache answers for the
    URL of ['/'], it does so after every sequence of fetch events, and a
    navigation to any URL while the network fails is answered, not
    failed. *)
Theorem offline_navigation_answered root cs evs host u :
  is_Some (SW.caches_match root cs) ->
  SW.fetches evs ->
  SW.net host (SW.navigation u) = None ->
  exists r, (SW.on_fetch root host (SW.navigation u) (SW.run root cs evs)).1.1
            = SW.Responded r.
Proof.
  intros Hroot Hevs Hoff.
  assert (is_Some (SW.caches_match root (SW.run root cs evs))) as [r0 Hr0].
  { revert cs Hroot. induction Hevs as [|ev t Hev _ IH]; intros cs Hroot; simpl; [done|].
    apply IH. destruct ev as [host0 request|]; [|done]. simpl.
    destruct (on_fetch_storage root host0 request cs) as [->|(r & _ & ->)]; [done|].
    by apply caches_match_open_and_put_is_Some. }
  unfold SW.on_fetch. simpl. rewrite Hoff, Hr0.
  destruct (SW.caches_match u _); eauto.
Qed.

Lemma offline_navigation_answered_witness :
  exists r,
    (SW.on_fetch "https://memories.example/" SW.offline
       (SW.navigation "https://memories.example/album")
       (SW.run "https://memories.example/"
          [(SW.CACHE_NAME, [("https://memories.example/", SW.page)])]
          [SW.Fetch SW.online (SW.asset "https://memories.example/a.js")])).1.1
    = SW.Responded r.
Proof.
  apply (offline_navigation_answered "https://memories.example/"
           [(SW.CACHE_NAME, [("https://memories.example/", SW.page)])]
           [SW.Fetch SW.online (SW.asset "https://memories.example/a.js")]
           SW.offline "https://memories.example/album").
  - by eexists.
  - repeat constructor.
  - reflexivity.
Defined.

(** ** The pass and the hook together *)

(** X27. What a pass leaves is what the hook finds: after a pass in
    which the store opened, the snapshot read and every fetch, put and
    delete succeeded, a working [getImage] resolves with a blob for every
    URL of the manifest and with null for every other URL, so that a
    lookup in progress commits an object URL for the first and the URL
    itself for the second. *)
Theorem synced_store_resolves env env' images w u :
  available env w ->
  env_getAll env = true ->
  (forall v, v ∈ desired images -> v ∉ cached w ->
     exists b, env_fetch env v = Response true b /\ env_put env v = true) ->
  (forall v, v ∈ cached w -> v ∉ desired images -> env_delete env v = true) ->
  env_get env' u = true ->
  let w1 := world_of (syncCache env images w) in
  (u ∈ desired images -> exists b, lookup env' w1 u = Resolved (Some b)) /\
  (u ∉ desired images -> lookup env' w1 u = Resolved None).
Proof.
  intros Hav Hall Hfetch Hdel Hget w1. subst w1.
  rewrite syncCache_run by done. unfold world_of, lookup. simpl.
  rewrite getImage_run, Hget. unfold result_of. simpl.
  rewrite get_sync_records, (to_evict_deleted env images w Hdel).
  split.
  - intros Hd. rewrite decide_False by tauto.
    destruct (decide (u ∈ cached w)) as [Hc|Hc].
    + rewrite decide_False by tauto.
      apply cached_get in Hc. destruct (IDB.get u (records w)) as [r|]; [|done].
      by exists (blob r).
    + rewrite decide_True by done.
      destruct (Hfetch u Hd Hc) as (b & Hf & Hp). exists b.
      unfold cache_result. by rewrite Hf, Hp.
  - intros Hd. destruct (decide (u ∈ cached w)) as [Hc|Hc].
    + by rewrite decide_True.
    + rewrite !decide_False by tauto. apply get_None in Hc. by rewrite Hc.
Qed.

Lemma synced_store_resolves_witness :
  lookup env_ok (world_of (syncCache env_ok sample_manifest sample_world)) "Z"
  = Resolved None.
Proof.
  refine (proj2 (synced_store_resolves env_ok env_ok sample_manifest sample_world "Z"
                   _ _ _ _ _) _).
  - by right.
  - reflexivity.
  - intros v _ _. exists payload_2. split; reflexivity.
  - intros v _ _. reflexivity.
  - reflexivity.
  - apply (bool_decide_unpack _). by vm_compute.
Defined.
